(** * health-stats-repro: the statistics fan-in collector and the lifecycle
      verification of the reproduction harness

    The harness is a Go program whose goroutines communicate over unbuffered
    channels and one shared [context.Context].  The development below embeds
    it as labelled transition systems: every goroutine has a program counter,
    a label names which goroutine moves (and so resolves both the scheduler
    and the choice a [select] makes among its ready cases), and [step] is the
    executable transition function.  A rendezvous on an unbuffered channel is
    one step that moves both parties.

    The sequential part (main, stopAndCheckContainer, failOnError, logFiles)
    is embedded in a small monad that threads the effects on the outside
    world and stops at [os.Exit]. *)

From Stdlib Require Import ZArith Lia Bool.
From stdpp Require Import base option list strings.

Local Open Scope list_scope.

(* ===================================================================== *)
(** * Part I: the embedding                                               *)
(* ===================================================================== *)

(** ** Schedules

    A goroutine system is given by its transition function [step]: a label
    says which goroutine moves, and the function answers [None] when that
    move is not possible in the state.  A schedule is a list of labels. *)
Module LTS.
Section Run.
Context {state label : Type} (step : label → state → option state).

Fixpoint run (tr : list label) (st : state) : option state :=
  match tr with
  | [] => Some st
  | l :: tr' => match step l st with Some st' => run tr' st' | None => None end
  end.

Definition reachable_from (init st : state) : Prop :=
  ∃ tr, run tr init = Some st.
End Run.
End LTS.

(** ** logStatsForContainers (both variants kept in the repository)

    The two variants of [logStatsForContainers] differ only in how the
    identifier is read ([containerIDs[x]] against [containers[x].ID]) and in
    the spelling of one log line; the model takes the identifiers. *)
Module Collector.

(** Lines written with [log.Printf] by the forwarding goroutines. *)
Inductive log_line :=
| LogListening (id : string)   (* "Listening for stats for container %q" *)
| LogReceived (id : string)    (* "Received stat for container %q" *)
| LogNoLonger (id : string).   (* "Container %q is no longer streaming" *)

Section Model.
(** [docker.Stats] belongs to the client library; the collector never
    looks inside it.  A [*docker.Stats] is [option Stats], [None] being
    the nil pointer. *)
Variable Stats : Type.

(** The goroutine [go client.Stats(...)] of one container, seen from its
    channel [contStats]: what it has already sent, what it will still send,
    and whether it has returned (the library closes the channel when
    [Stats] returns).  [delivered] is a history variable. *)
Record source := Source {
  delivered : list (option Stats);
  remaining : list (option Stats);
  closed : bool
}.

(** Program counter of the forwarding goroutine (the [go func() {...}()]
    of the loop body). *)
Inductive fwd_pc :=
| FStart                          (* spawned, before its first log line *)
| FSelect                         (* at the [select] *)
| FSend (stat : option Stats)     (* at [statsChan <- stat]: about to send, or parked in the send *)
| FDone.                          (* returned *)

(** Program counter of the loop at the end of the function.  [from] is
    the index of the forwarding goroutine that sent the value; the code
    does not keep it, the model does so that a written record can be
    traced to its stream. *)
Inductive merge_pc :=
| MSelect                                     (* at the [select]: about to enter it, or parked in it *)
| MGot (from : nat) (stat : option Stats)     (* received, before the nil test *)
| MReturned.                                  (* returned *)

Record state := State {
  cancelled : bool;                    (* ctx.Done() is closed *)
  ids : list string;                   (* containerIDs *)
  srcs : list source;                  (* one contStats and its sender per container *)
  fwds : list fwd_pc;                  (* one forwarding goroutine per container *)
  merger : merge_pc;
  out : list (nat * option Stats);     (* arguments of the Fprintf calls on [out], oldest first *)
  log : list log_line                  (* oldest first *)
}.

Definition set_cancelled (st : state) : state :=
  State true (ids st) (srcs st) (fwds st) (merger st) (out st) (log st).
Definition set_src (i : nat) (s : source) (st : state) : state :=
  State (cancelled st) (ids st) (<[i:=s]> (srcs st)) (fwds st) (merger st) (out st) (log st).
Definition set_fwd (i : nat) (pc : fwd_pc) (st : state) : state :=
  State (cancelled st) (ids st) (srcs st) (<[i:=pc]> (fwds st)) (merger st) (out st) (log st).
Definition set_merger (pc : merge_pc) (st : state) : state :=
  State (cancelled st) (ids st) (srcs st) (fwds st) pc (out st) (log st).
Definition write_out (from : nat) (stat : option Stats) (st : state) : state :=
  State (cancelled st) (ids st) (srcs st) (fwds st) (merger st) (out st ++ [(from, stat)]) (log st).
Definition write_log (l : log_line) (st : state) : state :=
  State (cancelled st) (ids st) (srcs st) (fwds st) (merger st) (out st) (log st ++ [l]).

(** Who moves. *)
Inductive label :=
| Cancel                 (* main calls cancel() *)
| FwdStart (i : nat)     (* forwarder i prints its first line and reaches the select *)
| SrcSend (i : nat)      (* client.Stats sends on contStats, forwarder i takes [case stat, ok := <-contStats] *)
| SrcClose (i : nat)     (* client.Stats of container i returns and closes contStats *)
| FwdClosed (i : nat)    (* forwarder i takes [case stat, ok := <-contStats] with ok false *)
| FwdDone (i : nat)      (* forwarder i takes [case <-ctx.Done()] *)
| Forward (i : nat)      (* [statsChan <- stat] of forwarder i meets [case stat := <-statsChan] *)
| MergeHandle            (* the nil test and the Fprintf *)
| MergeDone.             (* the final loop takes [case <-ctx.Done()] *)

Definition step (l : label) (st : state) : option state :=
  match l with
  | Cancel => Some (set_cancelled st)
  | FwdStart i =>
      match fwds st !! i, ids st !! i with
      | Some FStart, Some id =>
          Some (set_fwd i FSelect (write_log (LogListening id) st))
      | _, _ => None
      end
  | SrcSend i =>
      match srcs st !! i, fwds st !! i, ids st !! i with
      | Some (Source del (stat :: rest) false), Some FSelect, Some id =>
          Some (set_fwd i (FSend stat)
                  (write_log (LogReceived id)
                     (set_src i (Source (del ++ [stat]) rest false) st)))
      | _, _, _ => None
      end
  | SrcClose i =>
      match srcs st !! i with
      | Some (Source del rest false) =>
          if bool_decide (rest = []) || cancelled st
          then Some (set_src i (Source del rest true) st)
          else None
      | _ => None
      end
  | FwdClosed i =>
      match srcs st !! i, fwds st !! i, ids st !! i with
      | Some (Source _ _ true), Some FSelect, Some id =>
          Some (set_fwd i FDone (write_log (LogNoLonger id) st))
      | _, _, _ => None
      end
  | FwdDone i =>
      match fwds st !! i with
      | Some FSelect => if cancelled st then Some (set_fwd i FDone st) else None
      | _ => None
      end
  | Forward i =>
      match fwds st !! i, merger st with
      | Some (FSend stat), MSelect =>
          Some (set_merger (MGot i stat) (set_fwd i FSelect st))
      | _, _ => None
      end
  | MergeHandle =>
      match merger st with
      | MGot i None => Some (set_merger MSelect st)
      | MGot i (Some v) => Some (set_merger MSelect (write_out i (Some v) st))
      | _ => None
      end
  | MergeDone =>
      match merger st with
      | MSelect => if cancelled st then Some (set_merger MReturned st) else None
      | _ => None
      end
  end.

(** The call [logStatsForContainers(ctx, out, client, ids...)]: each
    container comes with what its statistics stream is going to deliver.
    The [for x := range] loop spawns the goroutines without blocking, so
    the call starts at the final loop with every forwarder spawned. *)
Definition containers := list (string * list (option Stats)).

Definition logStatsForContainers (cs : containers) : state :=
  State false (fst <$> cs)
        ((fun c => Source [] (snd c) false) <$> cs)
        ((fun _ => FStart) <$> cs)
        MSelect [] [].

Definition run : list label → state → option state := LTS.run step.

Definition reachable (cs : containers) (st : state) : Prop :=
  LTS.reachable_from step (logStatsForContainers cs) st.

(** *** Observations *)

Definition non_nil (l : list (option Stats)) : list (option Stats) :=
  filter is_Some l.

(** The values written that came through forwarder [i], oldest first. *)
Definition written (i : nat) (st : state) : list (option Stats) :=
  snd <$> filter (fun r => fst r = i) (out st).

(** What forwarder [i] has received from its stream so far. *)
Definition received (i : nat) (st : state) : list (option Stats) :=
  match srcs st !! i with Some s => delivered s | None => [] end.

(** The value of stream [i] that the final loop has taken from the
    shared channel and not yet tested. *)
Definition at_final_loop (i : nat) (st : state) : list (option Stats) :=
  match merger st with
  | MGot j stat => if bool_decide (j = i) then [stat] else []
  | _ => []
  end.

(** The value that forwarder [i] has received and not yet handed over. *)
Definition at_forwarder (i : nat) (st : state) : list (option Stats) :=
  match fwds st !! i with
  | Some (FSend stat) => [stat]
  | _ => []
  end.

(** Values of stream [i] that are inside the collector, oldest first. *)
Definition in_flight (i : nat) (st : state) : list (option Stats) :=
  at_final_loop i st ++ at_forwarder i st.

(** The sink as it will be once the final loop is through with the value
    it holds. *)
Definition committed (st : state) : list (nat * option Stats) :=
  out st ++
  match merger st with
  | MGot j (Some v) => [(j, Some v)]
  | _ => []
  end.

Definition all_forwarders_done (st : state) : Prop :=
  ∀ i pc, fwds st !! i = Some pc → pc = FDone.

Definition total_non_nil (cs : containers) : nat :=
  length (non_nil (concat (snd <$> cs))).

(** The container a label belongs to: its forwarder or its stream. *)
Definition owner (l : label) : option nat :=
  match l with
  | FwdStart i | SrcSend i | SrcClose i | FwdClosed i | FwdDone i | Forward i => Some i
  | Cancel | MergeHandle | MergeDone => None
  end.

(** [st'] is [st] but for forwarder [i] and for the log. *)
Definition same_but_forwarder (i : nat) (st st' : state) : Prop :=
  cancelled st' = cancelled st ∧ ids st' = ids st ∧ srcs st' = srcs st ∧
  merger st' = merger st ∧ out st' = out st ∧
  ∀ j, j ≠ i → fwds st' !! j = fwds st !! j.

(** Labels that move forwarder [i] itself. *)
Definition moves_forwarder (i : nat) (l : label) : bool :=
  match l with
  | FwdStart j | SrcSend j | FwdClosed j | FwdDone j | Forward j => bool_decide (j = i)
  | _ => false
  end.

(** The schedule that serves container [i] to the end of a stream of [n]
    values: the forwarder starts, each value is received, forwarded and
    handled, the stream closes, the forwarder returns. *)
Definition drain_one (i n : nat) : list label :=
  FwdStart i
  :: concat (replicate n [SrcSend i; Forward i; MergeHandle])
  ++ [SrcClose i; FwdClosed i].

Fixpoint drain_from (i : nat) (streams : list (list (option Stats))) : list label :=
  match streams with
  | [] => []
  | s :: rest => drain_one i (length s) ++ drain_from (S i) rest
  end.

(** One container after the other, each to the end of its stream. *)
Definition drain_all (cs : containers) : list label :=
  drain_from 0 (snd <$> cs).

(** Labels of the final loop alone. *)
Definition merge_only (l : label) : bool :=
  match l with MergeHandle | MergeDone => true | _ => false end.

(** The moves the final loop has left when it takes nothing more from the
    shared channel: the test and Fprintf of the value it holds, then the
    cancellation case. *)
Definition moves_left (st : state) : nat :=
  match merger st with
  | MGot _ _ => 2
  | MSelect => 1
  | MReturned => 0
  end.
End Model.

Arguments Source {Stats}.
Arguments FStart {Stats}.
Arguments FSelect {Stats}.
Arguments FSend {Stats}.
Arguments FDone {Stats}.
Arguments MSelect {Stats}.
Arguments MGot {Stats}.
Arguments MReturned {Stats}.
Arguments State {Stats}.
Arguments delivered {Stats}.
Arguments remaining {Stats}.
Arguments closed {Stats}.
Arguments cancelled {Stats}.
Arguments ids {Stats}.
Arguments srcs {Stats}.
Arguments fwds {Stats}.
Arguments merger {Stats}.
Arguments out {Stats}.
Arguments log {Stats}.
Arguments set_cancelled {Stats}.
Arguments set_src {Stats}.
Arguments set_fwd {Stats}.
Arguments set_merger {Stats}.
Arguments write_out {Stats}.
Arguments write_log {Stats}.
Arguments step {Stats}.
Arguments run {Stats}.
Arguments logStatsForContainers {Stats}.
Arguments reachable {Stats}.
Arguments non_nil {Stats}.
Arguments written {Stats}.
Arguments received {Stats}.
Arguments at_final_loop {Stats}.
Arguments at_forwarder {Stats}.
Arguments in_flight {Stats}.
Arguments committed {Stats}.
Arguments all_forwarders_done {Stats}.
Arguments total_non_nil {Stats}.
Arguments same_but_forwarder {Stats}.
Arguments drain_from {Stats}.
Arguments drain_all {Stats}.
Arguments moves_left {Stats}.
End Collector.

(** ** statsForContainers (main.go)

    The variant that fetches "super aggressively": each forwarding
    goroutine re-subscribes after every value it forwards, handing a fresh
    channel to a new [client.Stats] goroutine every time it takes a value
    from its buffered channel [subscribeAgain]. *)
Module Refetcher.

Inductive log_line :=
| LogListening (id : string)              (* "listing for stats for container %q" *)
| LogReceived (idx : nat) (id : string)   (* "Received stat for container %q id %q" *)
| LogMore.                                (* "listening for more stats" *)

Section Model.
Variable Stats : Type.

(** A goroutine spawned by [case <-subscribeAgain].  Its closure reads
    the variable [contStats] when it calls [client.Stats], not when it is
    spawned.  Channels made by one forwarder are numbered in the order of
    their creation. *)
Inductive sub_pc :=
| SubSpawned                                            (* before the call of client.Stats *)
| SubStreaming (ch : nat) (rest : list (option Stats))  (* inside client.Stats, sending on channel ch *)
| SubWait                                               (* at [<-subscribeAgain] *)
| SubDone.

Inductive fwd_pc :=
| FStart                          (* spawned *)
| FSelect                         (* at the [select] *)
| FSend (stat : option Stats)     (* at [statsChan <- stat]: about to send, or parked in the send *)
| FToken                          (* at [subscribeAgain <- true] *)
| FDone.                          (* returned *)

Record forwarder := Forwarder {
  pc : fwd_pc;
  contStats : nat;                        (* the channel held by the variable contStats *)
  token : bool;                           (* subscribeAgain (capacity 1) holds a value *)
  subs : list sub_pc;                     (* the goroutines spawned so far, oldest first *)
  closed_chans : list nat;                (* channels closed by a returning client.Stats *)
  feed : list (list (option Stats));      (* what the n-th call of client.Stats will deliver *)
  hist : list (option Stats)              (* values received from contStats so far (history) *)
}.

Inductive merge_pc :=
| MSelect
| MGot (from : nat) (stat : option Stats)
| MReturned.

Record state := State {
  cancelled : bool;
  panicked : bool;                     (* a channel was closed twice or sent on after its close *)
  ids : list string;
  fwds : list forwarder;
  merger : merge_pc;
  out : list (nat * option Stats);
  log : list log_line
}.

Definition set_cancelled (st : state) : state :=
  State true (panicked st) (ids st) (fwds st) (merger st) (out st) (log st).
Definition set_panicked (st : state) : state :=
  State (cancelled st) true (ids st) (fwds st) (merger st) (out st) (log st).
Definition set_fwd (i : nat) (f : forwarder) (st : state) : state :=
  State (cancelled st) (panicked st) (ids st) (<[i:=f]> (fwds st)) (merger st) (out st) (log st).
Definition set_merger (m : merge_pc) (st : state) : state :=
  State (cancelled st) (panicked st) (ids st) (fwds st) m (out st) (log st).
Definition write_out (from : nat) (stat : option Stats) (st : state) : state :=
  State (cancelled st) (panicked st) (ids st) (fwds st) (merger st) (out st ++ [(from, stat)]) (log st).
Definition write_log (l : log_line) (st : state) : state :=
  State (cancelled st) (panicked st) (ids st) (fwds st) (merger st) (out st) (log st ++ [l]).

Definition with_pc (p : fwd_pc) (f : forwarder) : forwarder :=
  Forwarder p (contStats f) (token f) (subs f) (closed_chans f) (feed f) (hist f).
Definition with_token (b : bool) (f : forwarder) : forwarder :=
  Forwarder (pc f) (contStats f) b (subs f) (closed_chans f) (feed f) (hist f).
Definition with_sub (k : nat) (s : sub_pc) (f : forwarder) : forwarder :=
  Forwarder (pc f) (contStats f) (token f) (<[k:=s]> (subs f)) (closed_chans f) (feed f) (hist f).

Inductive label :=
| Cancel                       (* the deferred cancel() of main *)
| FwdStart (i : nat)           (* make both channels, fill subscribeAgain, first log line *)
| TakeToken (i : nat)          (* [case <-subscribeAgain]: new channel, new goroutine *)
| SubCall (i k : nat)          (* goroutine k of forwarder i calls client.Stats *)
| SubSend (i k : nat)          (* client.Stats sends, forwarder i takes [case stat := <-contStats] *)
| SubReturn (i k : nat)        (* client.Stats returns, closing its channel *)
| SubToken (i k : nat)         (* goroutine k takes [<-subscribeAgain] and ends *)
| RecvClosed (i : nat)         (* [case stat := <-contStats] on a closed channel *)
| FwdDone (i : nat)            (* forwarder i takes [case <-ctx.Done()] *)
| Forward (i : nat)            (* [statsChan <- stat] meets [case stat := <-statsChan] *)
| PutToken (i : nat)           (* [subscribeAgain <- true] *)
| MergeHandle                  (* the nil test and the Fprintf *)
| MergeDone.                   (* the final loop takes [case <-ctx.Done()] *)

Definition is_closed (ch : nat) (f : forwarder) : bool :=
  bool_decide (ch ∈ closed_chans f).

Definition step_live (l : label) (st : state) : option state :=
  match l with
  | Cancel => Some (set_cancelled st)
  | FwdStart i =>
      match fwds st !! i, ids st !! i with
      | Some f, Some id =>
          match pc f with
          | FStart =>
              Some (set_fwd i (with_pc FSelect (with_token true f))
                      (write_log (LogListening id) st))
          | _ => None
          end
      | _, _ => None
      end
  | TakeToken i =>
      match fwds st !! i with
      | Some f =>
          match pc f, token f with
          | FSelect, true =>
              Some (set_fwd i
                      (Forwarder FSelect (S (contStats f)) false
                                 (subs f ++ [SubSpawned]) (closed_chans f) (feed f) (hist f))
                      (write_log LogMore st))
          | _, _ => None
          end
      | None => None
      end
  | SubCall i k =>
      match fwds st !! i with
      | Some f =>
          match subs f !! k with
          | Some SubSpawned =>
              Some (set_fwd i
                      (with_sub k (SubStreaming (contStats f) (default [] (feed f !! k))) f)
                      st)
          | _ => None
          end
      | None => None
      end
  | SubSend i k =>
      match fwds st !! i, ids st !! i with
      | Some f, Some id =>
          match subs f !! k with
          | Some (SubStreaming ch (stat :: rest)) =>
              if is_closed ch f then Some (set_panicked st)
              else
                match pc f with
                | FSelect =>
                    if bool_decide (ch = contStats f) then
                      let f' :=
                        Forwarder (pc f) (contStats f) (token f)
                                  (<[k:=SubStreaming ch rest]> (subs f))
                                  (closed_chans f) (feed f) (hist f ++ [stat]) in
                      match stat with
                      | None => Some (set_fwd i f' st)
                      | Some _ =>
                          Some (set_fwd i (with_pc (FSend stat) f')
                                  (write_log (LogReceived i id) st))
                      end
                    else None
                | _ => None
                end
          | _ => None
          end
      | _, _ => None
      end
  | SubReturn i k =>
      match fwds st !! i with
      | Some f =>
          match subs f !! k with
          | Some (SubStreaming ch rest) =>
              if bool_decide (rest = []) || cancelled st then
                if is_closed ch f then Some (set_panicked st)
                else
                  Some (set_fwd i
                          (Forwarder (pc f) (contStats f) (token f)
                                     (<[k:=SubWait]> (subs f))
                                     (ch :: closed_chans f) (feed f) (hist f))
                          st)
              else None
          | _ => None
          end
      | None => None
      end
  | SubToken i k =>
      match fwds st !! i with
      | Some f =>
          match subs f !! k, token f with
          | Some SubWait, true =>
              Some (set_fwd i (with_sub k SubDone (with_token false f)) st)
          | _, _ => None
          end
      | None => None
      end
  | RecvClosed i =>
      match fwds st !! i with
      | Some f =>
          match pc f with
          | FSelect => if is_closed (contStats f) f then Some st else None
          | _ => None
          end
      | None => None
      end
  | FwdDone i =>
      match fwds st !! i with
      | Some f =>
          match pc f with
          | FSelect => if cancelled st then Some (set_fwd i (with_pc FDone f) st) else None
          | _ => None
          end
      | None => None
      end
  | Forward i =>
      match fwds st !! i, merger st with
      | Some f, MSelect =>
          match pc f with
          | FSend stat => Some (set_merger (MGot i stat) (set_fwd i (with_pc FToken f) st))
          | _ => None
          end
      | _, _ => None
      end
  | PutToken i =>
      match fwds st !! i with
      | Some f =>
          match pc f, token f with
          | FToken, false => Some (set_fwd i (with_pc FSelect (with_token true f)) st)
          | _, _ => None
          end
      | None => None
      end
  | MergeHandle =>
      match merger st with
      | MGot i None => Some (set_merger MSelect st)
      | MGot i (Some v) => Some (set_merger MSelect (write_out i (Some v) st))
      | _ => None
      end
  | MergeDone =>
      match merger st with
      | MSelect => if cancelled st then Some (set_merger MReturned st) else None
      | _ => None
      end
  end.

(** A panic ends the process: nothing moves afterwards. *)
Definition step (l : label) (st : state) : option state :=
  if panicked st then None else step_live l st.

Definition run : list label → state → option state := LTS.run step.

(** The call [statsForContainers(ctx, out, client, ids...)]: each
    container comes with what each successive subscription to its
    statistics is going to deliver. *)
Definition containers := list (string * list (list (option Stats))).

Definition statsForContainers (cs : containers) : state :=
  State false false (fst <$> cs)
        ((fun c => Forwarder FStart 0 false [] [] (snd c) []) <$> cs)
        MSelect [] [].

Definition reachable (cs : containers) (st : state) : Prop :=
  LTS.reachable_from step (statsForContainers cs) st.

Definition non_nil (l : list (option Stats)) : list (option Stats) :=
  filter is_Some l.

Definition written (i : nat) (st : state) : list (option Stats) :=
  snd <$> filter (fun r => fst r = i) (out st).

Definition received (i : nat) (st : state) : list (option Stats) :=
  match fwds st !! i with Some f => hist f | None => [] end.

Definition in_flight (i : nat) (st : state) : list (option Stats) :=
  match merger st with
  | MGot j stat => if bool_decide (j = i) then [stat] else []
  | _ => []
  end ++
  match fwds st !! i with
  | Some f => match pc f with FSend stat => [stat] | _ => [] end
  | None => []
  end.
End Model.

Arguments SubSpawned {Stats}.
Arguments SubStreaming {Stats}.
Arguments SubWait {Stats}.
Arguments SubDone {Stats}.
Arguments FStart {Stats}.
Arguments FSelect {Stats}.
Arguments FSend {Stats}.
Arguments FToken {Stats}.
Arguments FDone {Stats}.
Arguments Forwarder {Stats}.
Arguments pc {Stats}.
Arguments contStats {Stats}.
Arguments token {Stats}.
Arguments subs {Stats}.
Arguments closed_chans {Stats}.
Arguments feed {Stats}.
Arguments hist {Stats}.
Arguments MSelect {Stats}.
Arguments MGot {Stats}.
Arguments MReturned {Stats}.
Arguments State {Stats}.
Arguments cancelled {Stats}.
Arguments panicked {Stats}.
Arguments ids {Stats}.
Arguments fwds {Stats}.
Arguments merger {Stats}.
Arguments out {Stats}.
Arguments log {Stats}.
Arguments set_cancelled {Stats}.
Arguments set_panicked {Stats}.
Arguments set_fwd {Stats}.
Arguments set_merger {Stats}.
Arguments write_out {Stats}.
Arguments write_log {Stats}.
Arguments with_pc {Stats}.
Arguments with_token {Stats}.
Arguments with_sub {Stats}.
Arguments is_closed {Stats}.
Arguments step_live {Stats}.
Arguments step {Stats}.
Arguments run {Stats}.
Arguments statsForContainers {Stats}.
Arguments reachable {Stats}.
Arguments non_nil {Stats}.
Arguments written {Stats}.
Arguments received {Stats}.
Arguments in_flight {Stats}.
End Refetcher.

(** ** The sequential glue: effects, the daemon, os.Exit *)
Module Glue.

(** An [error] is known by its message; [None] is the nil error. *)
Definition error := string.

(** [docker.Container], of which only the identifier is read. *)
Record container := Container { ID : string }.

Inductive open_flag := O_CREATE | O_WRONLY | O_APPEND | O_TRUNC.

(** What the process does to the outside world, in order.  A context is
    recorded by its timeout in nanoseconds, [None] when the call is given
    no context. *)
Inductive effect :=
| NewClientFromEnv
| BuildImage (name : string)
| RemoveImage (name : string)
| AddEventListener
| CreateContainer (image : string)
| StartContainer (id : string)
| StopContainer (id : string) (timeout_secs : Z)
| KillContainer (id : string) (ctx_timeout : option Z)
| InspectContainer (id : string) (ctx_timeout : option Z)
| RemoveContainer (id : string)
| OpenFile (name : string) (flags : list open_flag) (perm : Z)
| GoLogEvents (out : string)
| GoLogStats (out : string) (ids : list string)
| Sleep (ns : Z)
| CancelContext.

Inductive log_line :=
| LogError (err : error)                   (* failOnError: "%s" *)
| LogBuilding                              (* "Building docker container for test" *)
| LogConfigStop (b : bool)                 (* "| Config: stop container:\t%t" *)
| LogConfigRemove (b : bool)               (* "| Config: remove container:\t%t" *)
| LogWaiting (ns : Z)                      (* "Waiting for %s" *)
| LogCouldNotStop (id : string)            (* "Could not stop container %q" *)
| LogWillInspect (id : string)             (* "Will try to inspect container %q" *)
| LogErrInspect (err : error)              (* "Error inspecting container: %s" *)
| LogInspected (id : string)               (* "Successfully inspected container %q" *)
| LogRemoving (id : string)                (* "Removing container %q" / "Trying to remove container %q" *)
| LogCouldNotRemove (id : string)          (* "Could not remove container %q" *)
| LogRemoved (id : string)                 (* "Removed container %q" *)
| LogAffected (n : nat)                    (* "Run affected %d container(s):" *)
| LogEventsFile (name : string)            (* "logging events to %q" *)
| LogStatsFile (name : string)             (* "logging stats to %q" *)
| LogFile (name path : string).            (* "logging %q to %q" *)

(** The answers of the daemon and of the operating system.  A call that
    runs into the deadline of its context answers with an error like any
    other failed call. *)
Record daemon := Daemon {
  newClientFromEnv : option error;
  buildImage : option error;
  addEventListener : option error;
  createContainer_nth : nat → container + error;   (* by the number of earlier CreateContainer calls *)
  startContainer : string → option error;
  stopContainer : string → option error;
  killContainer : string → option error;
  inspectContainer : string → container + error;
  removeContainer : string → option error;
  openFile : string → option error;
  now_rfc3339 : string                             (* time.Now().Format(time.RFC3339) *)
}.

Record world := World {
  effects : list effect;       (* oldest first *)
  log : list log_line;         (* oldest first *)
  stdout : list string         (* what the program's own fmt.Printf calls printed, one
                                  entry per call; the build output that BuildImage copies
                                  to os.Stdout (OutputStream) is not recorded *)
}.

Definition start : world := World [] [] [].

(** A computation either returns or ends the process with [os.Exit]. *)
Inductive outcome (A : Type) :=
| Ret (a : A)
| Exit (code : Z).
Arguments Ret {A}.
Arguments Exit {A}.

Definition M (A : Type) : Type := world → outcome A * world.

Definition ret {A} (a : A) : M A := fun w => (Ret a, w).

Definition bind {A B} (m : M A) (k : A → M B) : M B :=
  fun w => match m w with
           | (Ret a, w') => k a w'
           | (Exit c, w') => (Exit c, w')
           end.

Definition os_Exit {A} (code : Z) : M A := fun w => (Exit code, w).

Definition perform (e : effect) : M unit :=
  fun w => (Ret tt, World (effects w ++ [e]) (log w) (stdout w)).

Definition log_Printf (l : log_line) : M unit :=
  fun w => (Ret tt, World (effects w) (log w ++ [l]) (stdout w)).

Definition fmt_Printf (line : string) : M unit :=
  fun w => (Ret tt, World (effects w) (log w) (stdout w ++ [line])).

Definition is_create (e : effect) : bool :=
  match e with CreateContainer _ => true | _ => false end.

Definition created_so_far : M nat :=
  fun w => (Ret (length (List.filter is_create (effects w))), w).

(** stdpp's notations [x ← m; k] and [m;; k] for this monad. *)
#[global] Instance M_ret : MRet M := @ret.
#[global] Instance M_bind : MBind M := fun A B k m => bind m k.

(** The exit status of the process when [main] is the computation [m]:
    returning from main exits with status 0. *)
Definition exit_status (r : outcome unit * world) : Z :=
  match fst r with
  | Ret _ => 0
  | Exit c => c
  end.

(** [time.Duration(secs) * time.Second], an int64 count of nanoseconds. *)
Definition wrap64 (z : Z) : Z := ((z + 2 ^ 63) mod 2 ^ 64 - 2 ^ 63)%Z.
Definition time_Second : Z := 1000000000.
Definition seconds (secs : Z) : Z := wrap64 (secs * time_Second).

Definition newline : string := String (Ascii.ascii_of_nat 10) EmptyString.

(** [err != nil] *)
Definition failed (err : option error) : bool :=
  match err with Some _ => true | None => false end.

(** The files the process has asked the operating system to open. *)
Definition is_open (e : effect) : bool :=
  match e with OpenFile _ _ _ => true | _ => false end.

Definition opened (w : world) : list effect := List.filter is_open (effects w).

(** A computation during which no file is opened. *)
Definition opens_nothing {A} (m : M A) : Prop :=
  ∀ w, opened (snd (m w)) = opened w.

(** A stop, kill or inspect call that carries a context with the timeout
    [ns]; [StopContainer] takes no context at all; the other effects are
    not lifecycle verification calls. *)
Definition carries_timeout (ns : Z) (e : effect) : Prop :=
  match e with
  | StopContainer _ _ => False
  | KillContainer _ t | InspectContainer _ t => t = Some ns
  | _ => True
  end.

(** The lines [# docker inspect <id>] for a list of containers. *)
Definition inspect_commands (cs : list container) : list string :=
  (fun c => "# docker inspect " +:+ ID c +:+ newline) <$> cs.

Definition inspect_fails (d : daemon) (c : container) : bool :=
  match inspectContainer d (ID c) with inr _ => true | inl _ => false end.
End Glue.

(** ** What is written to the two logs

    [fmt]'s rendering of a value under the verb [%#v] belongs to the Go
    library and is taken as given. *)
Module Sink.
Section Dump.
Context {Stats Event : Type}.
Variable dump_stats : option Stats → string.
Variable dump_event : option Event → string.

(** [fmt.Fprintf(out, "%#v\n", stat)] *)
Definition stats_record (stat : option Stats) : string :=
  dump_stats stat +:+ Glue.newline.

(** [fmt.Fprintf(out, "%#v", event)] of logEvents, which has no nil test. *)
Definition event_record (event : option Event) : string :=
  dump_event event.

(** The bytes that went through the handle of the statistics log, given
    the arguments of the Fprintf calls in order. *)
Definition statsout_bytes (out : list (nat * option Stats)) : string :=
  foldr (fun r acc => stats_record r.2 +:+ acc) ""%string out.

(** [logEvents] up to its return, given the events it took from its
    channel in order. *)
Definition logEvents (events : list (option Event)) : string :=
  foldr (fun e acc => event_record e +:+ acc) ""%string events.
End Dump.
End Sink.

(** ** unnamed/part_000, first variant (lines 1-221): streams statistics, then stops,
       inspects and removes the containers *)
Module Streaming.
Import Glue.

Definition imageName : string := "docker-poke:healthchecks".
Definition callTimeoutSecs : Z := 10.
Definition runDuration : Z := wrap64 (time_Second * 10).

Section WithDaemon.
Variable d : daemon.

Definition failOnError (err : option error) : M unit :=
  match err with
  | Some e => log_Printf (LogError e);; os_Exit 1
  | None => mret tt
  end.

Definition buildImageOptions (name : string) : M string :=
  log_Printf LogBuilding;; mret name.

Definition createContainer : M (container + error) :=
  n ← created_so_far;
  perform (CreateContainer imageName);;
  mret (createContainer_nth d n).

Definition logFiles : M (string * string) :=
  let stamp := now_rfc3339 d in
  let statsoutName := "statsout-" +:+ stamp in
  let eventsoutName := "eventsout-" +:+ stamp in
  log_Printf (LogEventsFile eventsoutName);;
  log_Printf (LogStatsFile statsoutName);;
  perform (OpenFile statsoutName [O_CREATE; O_WRONLY] 416);;
  failOnError (openFile d statsoutName);;
  perform (OpenFile eventsoutName [O_CREATE; O_WRONLY] 416);;
  failOnError (openFile d eventsoutName);;
  mret (statsoutName, eventsoutName).

Definition stopAndCheckContainer (cont : container) : M (option error) :=
  perform (StopContainer (ID cont) callTimeoutSecs);;
  match stopContainer d (ID cont) with
  | Some _ =>
      log_Printf (LogCouldNotStop (ID cont));;
      log_Printf (LogWillInspect (ID cont))
  | None => mret tt
  end;;
  perform (InspectContainer (ID cont) (Some (seconds callTimeoutSecs)));;
  match inspectContainer d (ID cont) with
  | inr err => mret (Some err)
  | inl insp =>
      log_Printf (LogInspected (ID insp));;
      log_Printf (LogRemoving (ID insp));;
      perform (RemoveContainer (ID cont));;
      mret (removeContainer d (ID cont))
  end.

Definition main : M unit :=
  '(statsout, eventsout) ← logFiles;
  perform NewClientFromEnv;;
  failOnError (newClientFromEnv d);;
  name ← buildImageOptions imageName;
  perform (BuildImage name);;
  failOnError (buildImage d);;
  perform AddEventListener;;
  failOnError (addEventListener d);;
  perform (GoLogEvents eventsout);;
  r1 ← createContainer;
  match r1 with
  | inr e => failOnError (Some e)
  | inl cont1 =>
  r2 ← createContainer;
  match r2 with
  | inr e => failOnError (Some e)
  | inl cont2 =>
  perform (StartContainer (ID cont1));;
  failOnError (startContainer d (ID cont1));;
  perform (StartContainer (ID cont2));;
  match startContainer d (ID cont2) with
  | Some e => stopAndCheckContainer cont1;; failOnError (Some e)
  | None => mret tt
  end;;
  perform (GoLogStats statsout [ID cont1; ID cont2]);;
  log_Printf (LogWaiting runDuration);;
  perform (Sleep runDuration);;
  perform CancelContext;;
  err1 ← stopAndCheckContainer cont1;
  let success := if failed err1 then false else true in
  err2 ← stopAndCheckContainer cont2;
  let success := if failed err2 then false else success in
  if success then perform CancelContext else os_Exit 2
  end
  end.
End WithDaemon.
End Streaming.

(** ** unnamed/part_000, second variant (lines 222-492): no statistics any more, the
       stop and the removal behind two constants *)
Module Repro.
Import Glue.

Definition imageName : string := "docker-poke:healthchecks".
Definition callTimeoutSecs : Z := 15.
Definition runDuration : Z := wrap64 (time_Second * 10).
Definition configStopContainer : bool := false.
Definition configRemoveContainer : bool := false.

Section WithDaemon.
Variable d : daemon.

Definition failOnError (err : option error) : M unit :=
  match err with
  | Some e => log_Printf (LogError e);; os_Exit 1
  | None => mret tt
  end.

Definition buildImageOptions (name : string) : M string :=
  log_Printf LogBuilding;; mret name.

Definition createContainer : M (container + error) :=
  n ← created_so_far;
  perform (CreateContainer imageName);;
  mret (createContainer_nth d n).

(** The body of [stopAndCheckContainer], the two constants taken as
    arguments. *)
Definition stopAndCheckContainer_with (stop remove : bool) (cont : container)
  : M (option error) :=
  (if stop then
     perform (KillContainer (ID cont) (Some (seconds callTimeoutSecs)));;
     match killContainer d (ID cont) with
     | Some _ =>
         log_Printf (LogCouldNotStop (ID cont));;
         log_Printf (LogWillInspect (ID cont))
     | None => mret tt
     end
   else mret tt);;
  perform (InspectContainer (ID cont) (Some (seconds callTimeoutSecs)));;
  match inspectContainer d (ID cont) with
  | inr err => log_Printf (LogErrInspect err);; mret (Some err)
  | inl insp =>
      log_Printf (LogInspected (ID insp));;
      if remove then
        log_Printf (LogRemoving (ID insp));;
        perform (RemoveContainer (ID cont));;
        match removeContainer d (ID cont) with
        | Some err => log_Printf (LogCouldNotRemove (ID insp));; mret (Some err)
        | None => log_Printf (LogRemoved (ID insp));; mret None
        end
      else mret None
  end.

Definition stopAndCheckContainer : container → M (option error) :=
  stopAndCheckContainer_with configStopContainer configRemoveContainer.

(** The [for _, cont := range conts] loop of main. *)
Fixpoint check_all (conts affected : list container) : M (list container) :=
  match conts with
  | [] => mret affected
  | cont :: rest =>
      err ← stopAndCheckContainer cont;
      check_all rest (if failed err then affected ++ [cont] else affected)
  end.

(** The [for _, c := range affected] loop of main. *)
Fixpoint print_affected (affected : list container) : M unit :=
  match affected with
  | [] => mret tt
  | c :: rest =>
      fmt_Printf ("# docker inspect " +:+ ID c +:+ newline);;
      print_affected rest
  end.

Definition main : M unit :=
  perform NewClientFromEnv;;
  failOnError (newClientFromEnv d);;
  log_Printf (LogConfigStop configRemoveContainer);;
  log_Printf (LogConfigRemove configRemoveContainer);;
  name ← buildImageOptions imageName;
  perform (BuildImage name);;
  failOnError (buildImage d);;
  r1 ← createContainer;
  match r1 with
  | inr e => failOnError (Some e)
  | inl cont1 =>
  r2 ← createContainer;
  match r2 with
  | inr e => failOnError (Some e)
  | inl cont2 =>
  perform (StartContainer (ID cont1));;
  failOnError (startContainer d (ID cont1));;
  perform (StartContainer (ID cont2));;
  match startContainer d (ID cont2) with
  | Some e => stopAndCheckContainer cont1;; failOnError (Some e)
  | None => mret tt
  end;;
  let conts := [cont1; cont2] in
  log_Printf (LogWaiting runDuration);;
  perform (Sleep runDuration);;
  affected ← check_all conts [];
  if bool_decide (length affected ≠ 0) then
    log_Printf (LogAffected (length affected));;
    print_affected affected;;
    os_Exit 2
  else mret tt
  end
  end.

(** Every call before the observation window succeeds, giving the two
    containers. *)
Definition setup_succeeds (cont1 cont2 : container) : Prop :=
  newClientFromEnv d = None ∧ buildImage d = None ∧
  createContainer_nth d 0 = inl cont1 ∧ createContainer_nth d 1 = inl cont2 ∧
  startContainer d (ID cont1) = None ∧ startContainer d (ID cont2) = None.

(** [logFile] is defined in this variant and called nowhere. *)
Definition logFile (name : string) : M string :=
  let stamp := now_rfc3339 d in
  let statsoutName := name +:+ "-" +:+ stamp in
  log_Printf (LogFile name statsoutName);;
  perform (OpenFile statsoutName [O_CREATE; O_WRONLY] 416);;
  failOnError (openFile d statsoutName);;
  mret statsoutName.
End WithDaemon.
End Repro.

(** ** main.go: the variant around [statsForContainers] *)
Module Aggressive.
Import Glue.

Definition imageName : string := "docker-poke:healthchecks".

Section WithDaemon.
Variable d : daemon.

Definition fail (err : error) : M unit :=
  log_Printf (LogError err);; os_Exit 1.

Definition failOnError (err : option error) : M unit :=
  match err with
  | Some e => fail e
  | None => mret tt
  end.

Definition createContainer : M (container + error) :=
  n ← created_so_far;
  perform (CreateContainer imageName);;
  mret (createContainer_nth d n).

(** The deferred calls run, last deferred first, when main returns;
    [os.Exit] skips them. *)
Definition main : M unit :=
  let stamp := now_rfc3339 d in
  let statsoutName := "statsout-" +:+ stamp in
  let eventsoutName := "eventsout-" +:+ stamp in
  log_Printf (LogEventsFile eventsoutName);;
  log_Printf (LogStatsFile statsoutName);;
  perform (OpenFile statsoutName [O_CREATE; O_WRONLY] 416);;
  failOnError (openFile d statsoutName);;
  perform (OpenFile eventsoutName [O_CREATE; O_WRONLY] 416);;
  failOnError (openFile d eventsoutName);;
  perform NewClientFromEnv;;
  failOnError (newClientFromEnv d);;
  perform (BuildImage imageName);;
  failOnError (buildImage d);;
  perform AddEventListener;;
  failOnError (addEventListener d);;
  perform (GoLogEvents eventsoutName);;
  r1 ← createContainer;
  match r1 with
  | inr e => failOnError (Some e)
  | inl cont1 =>
  r2 ← createContainer;
  match r2 with
  | inr e => failOnError (Some e)
  | inl cont2 =>
  perform (StartContainer (ID cont1));;
  failOnError (startContainer d (ID cont1));;
  perform (StartContainer (ID cont2));;
  failOnError (startContainer d (ID cont2));;
  perform (GoLogStats statsoutName [ID cont1; ID cont2]);;
  perform (Sleep (wrap64 (10 * time_Second)));;
  perform (StopContainer (ID cont2) 0);;
  perform (StopContainer (ID cont1) 0);;
  perform CancelContext;;
  perform (RemoveImage imageName)
  end
  end.
End WithDaemon.
End Aggressive.

(** ** Concrete runs

    Snapshots are numbered; [Some n] is a pointer to snapshot [n]. *)
Module Runs.

(** Two containers, five snapshots each, then the streams end. *)
Definition two_by_five : Collector.containers nat :=
  [("A"%string, [Some 1; Some 2; Some 3; Some 4; Some 5]);
   ("B"%string, [Some 6; Some 7; Some 8; Some 9; Some 10])].

Definition two_by_five_drained : list Collector.label :=
  Collector.drain_all two_by_five.

(** One container whose only snapshot has been received by its forwarder
    and not yet handed to the final loop when the context is cancelled and
    the final loop returns. *)
Definition one_pending : Collector.containers nat := [("A"%string, [Some 7])].
Definition pending_before_cancel : list Collector.label :=
  [Collector.FwdStart 0; Collector.SrcSend 0].
Definition return_at_once : list Collector.label := [Collector.MergeDone].

(** Two containers; the stream of the first has closed, the second still
    has a snapshot to deliver. *)
Definition one_closes : Collector.containers nat :=
  [("A"%string, []); ("B"%string, [Some 3])].
Definition first_closed : list Collector.label :=
  [Collector.FwdStart 0; Collector.FwdStart 1; Collector.SrcClose 0].

(** A stream that carries a nil between two snapshots. *)
Definition with_nil : Collector.containers nat :=
  [("A"%string, [Some 1; None; Some 2])].
Definition nil_at_final_loop : list Collector.label :=
  [Collector.FwdStart 0;
   Collector.SrcSend 0; Collector.Forward 0; Collector.MergeHandle;
   Collector.SrcSend 0; Collector.Forward 0].
Definition third_value_pending : list Collector.label :=
  nil_at_final_loop ++ [Collector.MergeHandle; Collector.SrcSend 0].
Definition first_value_taken : list Collector.label :=
  [Collector.FwdStart 0; Collector.SrcSend 0; Collector.Forward 0].
Definition cancel_handle_return : list Collector.label :=
  [Collector.Cancel; Collector.MergeHandle; Collector.MergeDone].

(** The pending snapshot again, the stream closed after the cancellation
    and the final loop returned. *)
Definition pending_for_ever : list Collector.label :=
  [Collector.FwdStart 0; Collector.SrcSend 0; Collector.Cancel;
   Collector.SrcClose 0; Collector.MergeDone].

(** The same situation for [statsForContainers]: the first subscription
    delivers one snapshot. *)
Definition refetch_one_pending : Refetcher.containers nat :=
  [("A"%string, [[Some 7]])].
Definition refetch_pending_then_returned : list Refetcher.label :=
  [Refetcher.FwdStart 0; Refetcher.TakeToken 0; Refetcher.SubCall 0 0;
   Refetcher.SubSend 0 0; Refetcher.Cancel; Refetcher.MergeDone].
Definition refetch_one_written : list Refetcher.label :=
  [Refetcher.FwdStart 0; Refetcher.TakeToken 0; Refetcher.SubCall 0 0;
   Refetcher.SubSend 0 0; Refetcher.Forward 0; Refetcher.MergeHandle].

(** A daemon that answers every call, naming the containers c0, c1, ... *)
Definition healthy : Glue.daemon :=
  Glue.Daemon None None None
              (fun n => inl (Glue.Container (if Nat.eqb n 0 then "c0" else "c1")%string))
              (fun _ => None) (fun _ => None) (fun _ => None)
              (fun id => inl (Glue.Container id))
              (fun _ => None) (fun _ => None)
              "2018-03-21T10:00:00Z"%string.

(** The same daemon, except that it fails to stop any container. *)
Definition stop_fails : Glue.daemon :=
  Glue.Daemon None None None
              (fun n => inl (Glue.Container (if Nat.eqb n 0 then "c0" else "c1")%string))
              (fun _ => None) (fun _ => Some "cannot stop"%string) (fun _ => None)
              (fun id => inl (Glue.Container id))
              (fun _ => None) (fun _ => None)
              "2018-03-21T10:00:00Z"%string.

(** The same daemon, except that inspecting c1 runs into the deadline. *)
Definition inspect_hangs : Glue.daemon :=
  Glue.Daemon None None None
              (fun n => inl (Glue.Container (if Nat.eqb n 0 then "c0" else "c1")%string))
              (fun _ => None) (fun _ => None) (fun _ => None)
              (fun id => if String.eqb id "c1" then inr "context deadline exceeded"%string
                         else inl (Glue.Container id))
              (fun _ => None) (fun _ => None)
              "2018-03-21T10:00:00Z"%string.

(** The same daemon, except that the image cannot be built. *)
Definition build_fails : Glue.daemon :=
  Glue.Daemon None (Some "no such image"%string) None
              (fun n => inl (Glue.Container (if Nat.eqb n 0 then "c0" else "c1")%string))
              (fun _ => None) (fun _ => None) (fun _ => None)
              (fun id => inl (Glue.Container id))
              (fun _ => None) (fun _ => None)
              "2018-03-21T10:00:00Z"%string.

(** The same daemon, on a system that refuses to open files. *)
Definition open_fails : Glue.daemon :=
  Glue.Daemon None None None
              (fun n => inl (Glue.Container (if Nat.eqb n 0 then "c0" else "c1")%string))
              (fun _ => None) (fun _ => None) (fun _ => None)
              (fun id => inl (Glue.Container id))
              (fun _ => None) (fun _ => Some "permission denied"%string)
              "2018-03-21T10:00:00Z"%string.

(** A subscription about to deliver a nil. *)
Definition refetch_nil_feed : Refetcher.containers nat :=
  [("A"%string, [[None; Some 4]])].
Definition refetch_subscribed : list Refetcher.label :=
  [Refetcher.FwdStart 0; Refetcher.TakeToken 0; Refetcher.SubCall 0 0].

(** The final loop of statsForContainers holding a nil (its forwarders
    never send one). *)
Definition refetch_holding_nil : Refetcher.state nat :=
  Refetcher.State false false ["A"%string] []
                  (Refetcher.MGot 0 None) [(0, Some 1)] [].

(** Two snapshots on one stream.  The final loop is writing the first,
    the forwarder has received the second, when the context is cancelled;
    back at its select the final loop finds both cases ready and takes the
    snapshot. *)
Definition two_snapshots : Collector.containers nat := [("A"%string, [Some 1; Some 7])].
Definition cancelled_during_write : list Collector.label :=
  [Collector.FwdStart 0; Collector.SrcSend 0; Collector.Forward 0;
   Collector.SrcSend 0; Collector.Cancel].
Definition receive_case_taken : list Collector.label :=
  [Collector.MergeHandle; Collector.Forward 0; Collector.MergeHandle].
End Runs.

(** ** The sentences of the specification that the code does not bear out,
       as they are worded *)
Module AsWorded.

(** "the collector writes every snapshot produced by every source before
    cancellation": whatever the streams had delivered when [cancel] was
    called is in the sink once the final loop has returned (nil values
    apart). *)
Definition writes_every_snapshot_produced_before_cancellation : Prop :=
  ∀ (cs : Collector.containers nat) tr1 st1 tr2 st2,
    Collector.run tr1 (Collector.logStatsForContainers cs) = Some st1 →
    Collector.cancelled st1 = false →
    Collector.run (Collector.Cancel :: tr2) st1 = Some st2 →
    Collector.merger st2 = Collector.MReturned →
    ∀ i, Collector.written i st2 = Collector.non_nil (Collector.received i st1).

(** "When the shared cancellation signal fires, the single merge task
    returns immediately without draining snapshots still buffered or
    pending on the shared channel": once the context is cancelled the
    final loop takes nothing more from the shared channel, so the sink never
    holds more than what was written, or held by the loop, at that
    moment. *)
Definition final_loop_consumes_nothing_after_cancellation : Prop :=
  ∀ (cs : Collector.containers nat) tr1 st1 tr2 st2,
    Collector.run tr1 (Collector.logStatsForContainers cs) = Some st1 →
    Collector.cancelled st1 = true →
    Collector.run tr2 st1 = Some st2 →
    Collector.out st2 `prefix_of` Collector.committed st1.

(** "every stats snapshot received by the collector is ... written to the
    output sink exactly once": when the final loop has returned, what was
    written for a container is what its forwarder received (nil values
    apart). *)
Definition every_received_snapshot_written_once : Prop :=
  ∀ (cs : Refetcher.containers nat) st,
    Refetcher.reachable cs st →
    Refetcher.merger st = Refetcher.MReturned →
    ∀ i, Refetcher.written i st = Refetcher.non_nil (Refetcher.received i st).

(** "any of the lifecycle calls that returns an error — the optional
    stop/kill call, ... — marks that container as affected": when the stop
    call answers with an error, stopAndCheckContainer returns an error,
    which is what main reads to count the container as affected. *)
Definition failed_stop_marks_affected : Prop :=
  ∀ (d : Glue.daemon) (cont : Glue.container) (w : Glue.world) (e : Glue.error),
    Glue.stopContainer d (Glue.ID cont) = Some e →
    ∃ e', fst (Streaming.stopAndCheckContainer d cont w) = Glue.Ret (Some e').

(** "every post-observation lifecycle verification call (the stop/kill
    call and the inspect call) is issued with a cancellation context
    carrying an explicit 15-second timeout", in both variants that verify
    the lifecycle. *)
Definition every_lifecycle_call_has_15s_context : Prop :=
  ∀ (d : Glue.daemon) (cont : Glue.container),
    Forall (Glue.carries_timeout 15000000000)
           (Glue.effects (snd (Streaming.stopAndCheckContainer d cont Glue.start))) ∧
    Forall (Glue.carries_timeout 15000000000)
           (Glue.effects (snd (Repro.stopAndCheckContainer d cont Glue.start))).

(** "every run creates exactly two output artifacts", in every variant
    of main. *)
Definition every_run_opens_two_logs : Prop :=
  ∀ (d : Glue.daemon),
    length (Glue.opened (snd (Aggressive.main d Glue.start))) = 2 ∧
    length (Glue.opened (snd (Streaming.main d Glue.start))) = 2 ∧
    length (Glue.opened (snd (Repro.main d Glue.start))) = 2.
End AsWorded.

(** ** logEvents (the same in the three programs)

    The goroutine [go logEvents(ctx, eventsout, eventChan)] and, on the
    other end of the unbuffered [eventChan], the client library, which
    sends the daemon's events and closes the channel when its event stream
    ends. *)
Module Events.
Section Model.
(** [docker.APIEvents]; a [*docker.APIEvents] is [option Event]. *)
Variable Event : Type.

Inductive logger_pc :=
| ESelect                          (* at the [select] *)
| EGot (event : option Event)      (* received, before the Fprintf *)
| EReturned.                       (* returned *)

Record state := State {
  cancelled : bool;                 (* ctx.Done() is closed *)
  remaining : list (option Event);  (* what the library will still send *)
  closed : bool;                    (* the library has closed the channel *)
  taken : list (option Event);      (* what [<-events] has returned so far (history) *)
  logger : logger_pc;
  out : list (option Event)         (* arguments of the Fprintf calls, oldest first *)
}.

Inductive label :=
| Cancel        (* main calls cancel() *)
| Deliver       (* the library sends, logEvents takes [case event := <-events] *)
| Close         (* the library closes the channel *)
| RecvClosed    (* [case event := <-events] on the closed channel: nil *)
| Write         (* fmt.Fprintf(out, "%#v", event) *)
| Done.         (* [case <-ctx.Done()] *)

Definition step (l : label) (st : state) : option state :=
  match l with
  | Cancel =>
      Some (State true (remaining st) (closed st) (taken st) (logger st) (out st))
  | Deliver =>
      match remaining st, closed st, logger st with
      | event :: rest, false, ESelect =>
          Some (State (cancelled st) rest false (taken st ++ [event]) (EGot event) (out st))
      | _, _, _ => None
      end
  | Close =>
      if closed st then None
      else Some (State (cancelled st) (remaining st) true (taken st) (logger st) (out st))
  | RecvClosed =>
      match closed st, logger st with
      | true, ESelect =>
          Some (State (cancelled st) (remaining st) true (taken st ++ [None]) (EGot None) (out st))
      | _, _ => None
      end
  | Write =>
      match logger st with
      | EGot event =>
          Some (State (cancelled st) (remaining st) (closed st) (taken st) ESelect
                      (out st ++ [event]))
      | _ => None
      end
  | Done =>
      match logger st with
      | ESelect =>
          if cancelled st
          then Some (State true (remaining st) (closed st) (taken st) EReturned (out st))
          else None
      | _ => None
      end
  end.

Definition run : list label → state → option state := LTS.run step.

(** The call [logEvents(ctx, out, events)], with what the library is going
    to send on [events]. *)
Definition logEvents (events : list (option Event)) : state :=
  State false events false [] ESelect [].

Definition reachable (events : list (option Event)) (st : state) : Prop :=
  LTS.reachable_from step (logEvents events) st.

(** The event logEvents has received and not yet written. *)
Definition in_hand (st : state) : list (option Event) :=
  match logger st with EGot event => [event] | _ => [] end.

(** Reading the closed channel and writing what was read, [n] times. *)
Definition spin (n : nat) : list label :=
  concat (replicate n [RecvClosed; Write]).
End Model.

Arguments ESelect {Event}.
Arguments EGot {Event}.
Arguments EReturned {Event}.
Arguments State {Event}.
Arguments cancelled {Event}.
Arguments remaining {Event}.
Arguments closed {Event}.
Arguments taken {Event}.
Arguments logger {Event}.
Arguments out {Event}.
Arguments step {Event}.
Arguments run {Event}.
Arguments logEvents {Event}.
Arguments reachable {Event}.
Arguments in_hand {Event}.
End Events.

(** ** Bookkeeping of statsForContainers

    Quantities read off one forwarding goroutine of statsForContainers and
    the relations its subscriptions keep. *)
Module RefetcherObs.
Section Obs.
Context {Stats : Type}.

Definition is_done (s : Refetcher.sub_pc Stats) : bool :=
  match s with Refetcher.SubDone => true | _ => false end.

(** Subscription goroutines that have taken their value from
    [subscribeAgain] and ended. *)
Definition finished (subs : list (Refetcher.sub_pc Stats)) : nat :=
  sum_list_with (fun s => if is_done s then 1 else 0) subs.

(** Values in the buffer of [subscribeAgain]. *)
Definition tokens (f : Refetcher.forwarder Stats) : nat :=
  if Refetcher.token f then 1 else 0.

(** A snapshot received whose [subscribeAgain <- true] is still to come. *)
Definition in_hand (f : Refetcher.forwarder Stats) : nat :=
  match Refetcher.pc f with
  | Refetcher.FSend _ | Refetcher.FToken => 1
  | _ => 0
  end.

Definition started (f : Refetcher.forwarder Stats) : nat :=
  match Refetcher.pc f with Refetcher.FStart => 0 | _ => 1 end.

(** Every value put into [subscribeAgain] is in the buffer or was taken by
    a new subscription or by a finished one. *)
Definition balanced (f : Refetcher.forwarder Stats) : Prop :=
  tokens f + length (Refetcher.subs f) + finished (Refetcher.subs f) + in_hand f
  = started f + length (Refetcher.non_nil (Refetcher.hist f)).

(** The channels of one forwarder: the variable holds the channel made
    last; the n-th subscription streams on the channel made when it was
    spawned; only the newest subscription can still be before its call of
    client.Stats, and then no value is in [subscribeAgain] or on its way
    there; a closed channel is that of a subscription whose client.Stats
    has returned. *)
Definition channels_in_order (f : Refetcher.forwarder Stats) : Prop :=
  Refetcher.contStats f = length (Refetcher.subs f) ∧
  (∀ k ch rest,
     Refetcher.subs f !! k = Some (Refetcher.SubStreaming ch rest) → ch = S k) ∧
  (∀ k, Refetcher.subs f !! k = Some Refetcher.SubSpawned →
        S k = length (Refetcher.subs f) ∧ Refetcher.token f = false ∧
        (Refetcher.pc f = Refetcher.FSelect ∨ Refetcher.pc f = Refetcher.FDone)) ∧
  (∀ c, c ∈ Refetcher.closed_chans f →
        ∃ k, c = S k ∧
             (Refetcher.subs f !! k = Some Refetcher.SubWait ∨
              Refetcher.subs f !! k = Some Refetcher.SubDone)).

(** A forwarder at its select, or returned, whose current channel is
    closed while [subscribeAgain] is empty.  The program counter matters:
    a forwarder at [statsChan <- stat] or at [subscribeAgain <- true] with
    the same channel and buffer is about to refill [subscribeAgain]. *)
Definition stalled (f : Refetcher.forwarder Stats) : Prop :=
  Refetcher.token f = false ∧
  Refetcher.is_closed (Refetcher.contStats f) f = true ∧
  (Refetcher.pc f = Refetcher.FSelect ∨ Refetcher.pc f = Refetcher.FDone).

(** Subscription [k] of a forwarder is not its newest one, and has
    [rest] still to deliver or has left client.Stats. *)
Definition overtaken (k : nat) (rest : list (option Stats))
    (f : Refetcher.forwarder Stats) : Prop :=
  S k < length (Refetcher.subs f) ∧
  (Refetcher.subs f !! k = Some (Refetcher.SubStreaming (S k) rest) ∨
   Refetcher.subs f !! k = Some Refetcher.SubWait ∨
   Refetcher.subs f !! k = Some Refetcher.SubDone).

(** Labels that move forwarder [i] itself. *)
Definition moves_forwarder (i : nat) (l : Refetcher.label) : bool :=
  match l with
  | Refetcher.FwdStart j | Refetcher.TakeToken j | Refetcher.SubSend j _
  | Refetcher.RecvClosed j | Refetcher.FwdDone j | Refetcher.Forward j
  | Refetcher.PutToken j => bool_decide (j = i)
  | _ => false
  end.
End Obs.
End RefetcherObs.

(** ** Observations on the runs of the three mains *)
Module GlueObs.
Import Glue.

(** Calls that stop, kill or remove a container, or remove the image. *)
Definition is_cleanup (e : effect) : bool :=
  match e with
  | StopContainer _ _ | KillContainer _ _ | RemoveContainer _ | RemoveImage _ => true
  | _ => false
  end.

(** Calls made on a container after its start. *)
Definition is_lifecycle (e : effect) : bool :=
  match e with
  | StopContainer _ _ | KillContainer _ _ | InspectContainer _ _ | RemoveContainer _ => true
  | _ => false
  end.

Definition cleanups (w : world) : list effect := List.filter is_cleanup (effects w).
Definition lifecycle (w : world) : list effect := List.filter is_lifecycle (effects w).

(** A computation that adds no effect selected by [p]. *)
Definition keeps {A} (p : effect → bool) (m : M A) : Prop :=
  ∀ w, List.filter p (effects (snd (m w))) = List.filter p (effects w).

Section WithDaemon.
Variable d : daemon.

(** Both log files can be opened. *)
Definition files_open : Prop :=
  openFile d ("statsout-" +:+ now_rfc3339 d) = None ∧
  openFile d ("eventsout-" +:+ now_rfc3339 d) = None.

(** Every call of the first variant before its observation window
    succeeds. *)
Definition streaming_setup_succeeds (cont1 cont2 : container) : Prop :=
  files_open ∧ addEventListener d = None ∧ Repro.setup_succeeds d cont1 cont2.

(** Everything succeeds up to the start of the second container, which
    fails with [e]. *)
Definition second_start_fails (cont1 cont2 : container) (e : error) : Prop :=
  newClientFromEnv d = None ∧ buildImage d = None ∧
  createContainer_nth d 0 = inl cont1 ∧ createContainer_nth d 1 = inl cont2 ∧
  startContainer d (ID cont1) = None ∧ startContainer d (ID cont2) = Some e.

(** The calls the first variant makes to verify one container: the
    removal only after a successful inspection. *)
Definition streaming_verification (c : container) : list effect :=
  StopContainer (ID c) Streaming.callTimeoutSecs ::
  InspectContainer (ID c) (Some (seconds Streaming.callTimeoutSecs)) ::
  match inspectContainer d (ID c) with
  | inl _ => [RemoveContainer (ID c)]
  | inr _ => []
  end.

(** The first variant's verification of [c] returns an error. *)
Definition streaming_check_fails (c : container) : bool :=
  match inspectContainer d (ID c) with
  | inr _ => true
  | inl _ => failed (removeContainer d (ID c))
  end.

(** The inspect call of the second variant. *)
Definition repro_inspection (c : container) : effect :=
  InspectContainer (ID c) (Some (seconds Repro.callTimeoutSecs)).
End WithDaemon.

(** The last line of the log is the message of an error. *)
Definition ends_with_error (w : world) : Prop :=
  ∃ e, last (log w) = Some (LogError e).

(** More daemons: one that cannot start the second container, one that
    cannot remove the first. *)
Definition start_c1_fails : daemon :=
  Daemon None None None
         (fun n => inl (Container (if Nat.eqb n 0 then "c0" else "c1")%string))
         (fun id => if String.eqb id "c1" then Some "no such container"%string else None)
         (fun _ => None) (fun _ => None)
         (fun id => inl (Container id))
         (fun _ => None) (fun _ => None)
         "2018-03-21T10:00:00Z"%string.

Definition remove_c0_fails : daemon :=
  Daemon None None None
         (fun n => inl (Container (if Nat.eqb n 0 then "c0" else "c1")%string))
         (fun _ => None) (fun _ => None) (fun _ => None)
         (fun id => inl (Container id))
         (fun id => if String.eqb id "c0" then Some "removal in progress"%string else None)
         (fun _ => None)
         "2018-03-21T10:00:00Z"%string.
End GlueObs.

(** ** Counting the log lines of logStatsForContainers *)
Module CollectorObs.
Section Obs.
Context {Stats : Type}.

Definition is_listening (l : Collector.log_line) : nat :=
  match l with Collector.LogListening _ => 1 | _ => 0 end.
Definition is_received (l : Collector.log_line) : nat :=
  match l with Collector.LogReceived _ => 1 | _ => 0 end.
Definition is_no_longer (l : Collector.log_line) : nat :=
  match l with Collector.LogNoLonger _ => 1 | _ => 0 end.

(** The number of log lines of one kind. *)
Definition lines (kind : Collector.log_line → nat) (st : Collector.state Stats) : nat :=
  sum_list_with kind (Collector.log st).

Definition is_started (pc : Collector.fwd_pc Stats) : nat :=
  match pc with Collector.FStart => 0 | _ => 1 end.
Definition is_sending (pc : Collector.fwd_pc Stats) : nat :=
  match pc with Collector.FSend _ => 1 | _ => 0 end.
Definition is_returned (pc : Collector.fwd_pc Stats) : nat :=
  match pc with Collector.FDone => 1 | _ => 0 end.

(** The number of forwarders in one condition. *)
Definition forwarders (cond : Collector.fwd_pc Stats → nat) (st : Collector.state Stats) : nat :=
  sum_list_with cond (Collector.fwds st).

(** The final loop holds a value it has not tested yet. *)
Definition holding (st : Collector.state Stats) : nat :=
  match Collector.merger st with Collector.MGot _ _ => 1 | _ => 0 end.

(** The number of values, nil or not, received from all streams. *)
Definition total_received (st : Collector.state Stats) : nat :=
  sum_list_with (fun s => length (Collector.delivered s)) (Collector.srcs st).
End Obs.
End CollectorObs.

(** ** More concrete runs *)
Module MoreRuns.

(** Three events on the listener's channel, a nil between two events. *)
Definition events_with_nil : list (option nat) := [Some 1; None; Some 2].

(** The first event written, the nil received and not yet written. *)
Definition nil_event_in_hand : list Events.label :=
  [Events.Deliver; Events.Write; Events.Deliver].

(** The library closes the channel after the first event. *)
Definition closed_after_one : list Events.label :=
  [Events.Deliver; Events.Write; Events.Close].

(** Two subscriptions of one snapshot each; the second has just called
    client.Stats. *)
Definition refetch_two_rounds : Refetcher.containers nat :=
  [("A"%string, [[Some 1]; [Some 2]])].
Definition refetch_second_subscription : list Refetcher.label :=
  [Refetcher.FwdStart 0; Refetcher.TakeToken 0; Refetcher.SubCall 0 0;
   Refetcher.SubSend 0 0; Refetcher.Forward 0; Refetcher.MergeHandle;
   Refetcher.PutToken 0; Refetcher.TakeToken 0; Refetcher.SubCall 0 1].

(** The first subscription ends after its snapshot, and its goroutine
    takes the value from [subscribeAgain] before the select does. *)
Definition refetch_token_taken_by_subscription : list Refetcher.label :=
  [Refetcher.FwdStart 0; Refetcher.TakeToken 0; Refetcher.SubCall 0 0;
   Refetcher.SubSend 0 0; Refetcher.Forward 0; Refetcher.MergeHandle;
   Refetcher.PutToken 0; Refetcher.SubReturn 0 0; Refetcher.SubToken 0 0].

(** A first subscription of two snapshots; the forwarder subscribes
    again after the first. *)
Definition refetch_long_first : Refetcher.containers nat :=
  [("A"%string, [[Some 1; Some 5]; [Some 2]])].
Definition refetch_resubscribed : list Refetcher.label :=
  [Refetcher.FwdStart 0; Refetcher.TakeToken 0; Refetcher.SubCall 0 0;
   Refetcher.SubSend 0 0; Refetcher.Forward 0; Refetcher.MergeHandle;
   Refetcher.PutToken 0; Refetcher.TakeToken 0].

(** The first subscription ends while the forwarder still holds its
    snapshot; the forwarder hands it over, refills [subscribeAgain] and
    subscribes again. *)
Definition refetch_ended_with_snapshot_in_hand : list Refetcher.label :=
  [Refetcher.FwdStart 0; Refetcher.TakeToken 0; Refetcher.SubCall 0 0;
   Refetcher.SubSend 0 0; Refetcher.SubReturn 0 0].
Definition refetch_hand_over_and_subscribe : list Refetcher.label :=
  [Refetcher.Forward 0; Refetcher.MergeHandle; Refetcher.PutToken 0;
   Refetcher.TakeToken 0].

(** A subscription that ends without a snapshot. *)
Definition refetch_empty_feed : Refetcher.containers nat :=
  [("A"%string, [[]])].
Definition refetch_ends_at_once : list Refetcher.label :=
  [Refetcher.FwdStart 0; Refetcher.TakeToken 0; Refetcher.SubCall 0 0;
   Refetcher.SubReturn 0 0].

(** Two containers: the stream of the first closes and its forwarder logs
    it; the forwarder of the second returns through ctx.Done(). *)
Definition one_closes_one_cancelled : list Collector.label :=
  [Collector.FwdStart 0; Collector.FwdStart 1; Collector.SrcClose 0;
   Collector.FwdClosed 0; Collector.SrcSend 1; Collector.Forward 1;
   Collector.MergeHandle; Collector.Cancel; Collector.FwdDone 1].
End MoreRuns.

(* ===================================================================== *)
(** * Part II: facts                                                      *)
(* ===================================================================== *)

(** ** Schedules *)
Section LTSFacts.
Context {state label : Type} (step : label → state → option state).
Implicit Types (st : state) (tr : list label).

Lemma run_app tr1 tr2 st :
  LTS.run step (tr1 ++ tr2) st = LTS.run step tr1 st ≫= LTS.run step tr2.
Proof.
  revert st. induction tr1 as [|l tr1 IH]; intros st; simpl; [done|].
  destruct (step l st); simpl; auto.
Qed.

Lemma reachable_from_refl st : LTS.reachable_from step st st.
Proof. by exists []. Qed.

Lemma reachable_from_run init st tr st' :
  LTS.reachable_from step init st → LTS.run step tr st = Some st' →
  LTS.reachable_from step init st'.
Proof.
  intros [tr0 Htr0] Hrun. exists (tr0 ++ tr). by rewrite run_app, Htr0.
Qed.

Lemma reachable_from_step init st l st' :
  LTS.reachable_from step init st → step l st = Some st' →
  LTS.reachable_from step init st'.
Proof.
  intros Hr Hst. apply (reachable_from_run init st [l]); [done|].
  simpl. by rewrite Hst.
Qed.

(** Induction over the reachable states. *)
Lemma reachable_from_ind init (P : state → Prop) :
  P init →
  (∀ st l st', LTS.reachable_from step init st → P st → step l st = Some st' → P st') →
  ∀ st, LTS.reachable_from step init st → P st.
Proof.
  intros Hinit Hstep st [tr Htr]. revert st Htr.
  induction tr as [|l tr IH] using rev_ind; intros st Htr.
  - simpl in Htr. by simplify_eq.
  - rewrite run_app in Htr.
    destruct (LTS.run step tr init) as [st0|] eqn:E; [|done].
    simpl in Htr. destruct (step l st0) as [st1|] eqn:E1; [|done].
    simplify_eq. eapply Hstep; [by exists tr | by apply IH | done].
Qed.

End LTSFacts.

(** ** Records and the stream they came from *)
Section TaggedRecords.
Context {A : Type}.

Lemma written_origin (o : list (nat * option A)) (r : nat * option A)
      (rest h : list (option A)) :
  r ∈ o →
  (snd <$> filter (λ r', r'.1 = r.1) o) ++ rest = filter is_Some h →
  r.2 ∈ h.
Proof.
  intros Hr Heq.
  assert (r.2 ∈ filter is_Some h) as Hin.
  { rewrite <- Heq. apply elem_of_app. left.
    apply list_elem_of_fmap_2. by apply list_elem_of_filter. }
  by apply list_elem_of_filter in Hin as [_ ?].
Qed.
End TaggedRecords.

(** ** logStatsForContainers *)
Section CollectorFacts.
Import Collector.
Context {Stats : Type}.
Implicit Types (st : state Stats) (tr : list label).
Implicit Types (cs : list (string * list (option Stats))).

Lemma reachable_invariant cs (P : state Stats → Prop) :
  P (logStatsForContainers cs) →
  (∀ st l st', reachable cs st → P st → step l st = Some st' → P st') →
  ∀ st, reachable cs st → P st.
Proof. apply reachable_from_ind. Qed.

(** Case analysis on a step that is known to succeed. *)
Ltac step_inv H :=
  unfold step in H; repeat case_match; simplify_eq; simpl in *.

(** *** Shape of the reachable states *)

Lemma shape_invariant cs st :
  reachable cs st →
  ids st = fst <$> cs ∧ length (srcs st) = length cs ∧ length (fwds st) = length cs.
Proof.
  revert st. apply reachable_invariant.
  - simpl. by rewrite !length_fmap.
  - intros st l st' _ (Hid & Hs & Hf) Hstep.
    step_inv Hstep; rewrite ?length_insert; done.
Qed.

(** Every stream is what it has delivered followed by what remains. *)
Lemma source_invariant cs st :
  reachable cs st →
  ∀ i s, srcs st !! i = Some s →
         ∃ c, cs !! i = Some c ∧ delivered s ++ remaining s = snd c.
Proof.
  intros Hr. pattern st. revert st Hr. apply reachable_invariant.
  - simpl. intros i s Hs.
    apply list_lookup_fmap_Some in Hs as (c & -> & Hc). eauto.
  - intros st l st' _ IH Hstep k s Hk.
    step_inv Hstep; eauto;
      (destruct (decide (k = i)) as [->|Hne];
       [ rewrite list_lookup_insert_eq in Hk by (by eapply lookup_lt_Some);
         simplify_eq/=;
         match goal with H : srcs st !! _ = Some _ |- _ => apply IH in H as (c & ? & ?) end;
         exists c; simpl in *; split; [done|]; by rewrite <- ?app_assoc
       | rewrite list_lookup_insert_ne in Hk by done; eauto ]).
Qed.

(** *** Where every received value is *)

Lemma non_nil_app (l1 l2 : list (option Stats)) :
  non_nil (l1 ++ l2) = non_nil l1 ++ non_nil l2.
Proof. apply filter_app. Qed.

Lemma written_snoc k j v (o : list (nat * option Stats)) :
  (snd <$> filter (λ r, fst r = k) (o ++ [(j, v)]))
  = (snd <$> filter (λ r, fst r = k) o) ++ (if bool_decide (j = k) then [v] else []).
Proof.
  rewrite filter_app, fmap_app. f_equal.
  rewrite filter_cons, filter_nil. simpl.
  destruct (decide (j = k)); by case_bool_decide.
Qed.

(** Lookup in an updated list, by cases on the index. *)
Ltac split_index k i :=
  destruct (decide (k = i)) as [->|?];
  [ rewrite ?list_lookup_insert_eq by (by eapply lookup_lt_Some)
  | rewrite ?list_lookup_insert_ne by done ].

(** The values of stream [k] that are not nil are, in order: those
    written, then the one the final loop holds, then the one the forwarder
    holds. *)
Lemma flow_invariant cs st :
  reachable cs st →
  ∀ k, written k st ++ non_nil (in_flight k st) = non_nil (received k st).
Proof.
  intros Hr. pattern st. revert st Hr. apply reachable_invariant.
  - intros k. unfold written, in_flight, at_final_loop, at_forwarder, received; simpl.
    rewrite !list_lookup_fmap. by destruct (cs !! k).
  - intros st l st' _ IH Hstep k. specialize (IH k).
    step_inv Hstep; unfold written, in_flight, at_final_loop, at_forwarder, received in *;
      simpl in *; rewrite ?written_snoc.
    all: try done.
    all: try match goal with |- context [ <[?i:=_]> _ !! ?j ] => split_index j i end.
    all: repeat match goal with
           | H : _ !! _ = Some _ |- _ => rewrite H in IH
           | H : merger _ = _ |- _ => rewrite H in IH
           end; simpl in *.
    all: rewrite ?bool_decide_eq_true_2 in * by done.
    all: rewrite ?bool_decide_eq_false_2 in * by done.
    all: rewrite ?non_nil_app in *; simpl in *.
    all: try done.
    all: repeat match goal with H : ?x = _ |- context [?x] => rewrite H end.
    all: repeat case_bool_decide; simplify_eq.
    all: unfold non_nil in *; simpl in *.
    all: rewrite ?app_nil_r in *; rewrite <- ?app_assoc in *; simpl; try done.
    all: try (rewrite <- IH; by rewrite <- ?app_assoc).
Qed.

(** *** What the final loop writes *)

(** Only the branch after the nil test writes, whatever the state. *)
Lemma step_keeps_out_non_nil l st st' :
  step l st = Some st' →
  Forall (λ r, is_Some r.2) (out st) → Forall (λ r, is_Some r.2) (out st').
Proof.
  intros Hstep Hout. step_inv Hstep; try done.
  apply Forall_app; split; [done|]. by repeat constructor.
Qed.

Lemma out_non_nil cs st :
  reachable cs st → Forall (λ r, is_Some r.2) (out st).
Proof.
  intros Hr. pattern st. revert st Hr. apply reachable_invariant.
  - constructor.
  - intros st l st' _ IH Hstep. by eapply step_keeps_out_non_nil.
Qed.

(** Every record comes through one of the forwarders. *)
Lemma out_tags cs st :
  reachable cs st →
  Forall (λ r, r.1 < length cs) (out st) ∧
  ∀ j stat, merger st = MGot j stat → j < length cs.
Proof.
  intros Hr. pattern st. revert st Hr. apply reachable_invariant.
  - split; [constructor | done].
  - intros st l st' Hr [IHo IHm] Hstep.
    destruct (shape_invariant _ _ Hr) as (_ & _ & Hlen).
    step_inv Hstep; try done.
    + split; [done|]. intros j s ?; simplify_eq.
      rewrite <- Hlen. by eapply lookup_lt_Some.
    + split; [|done]. apply Forall_app; split; [done|].
      repeat constructor. simpl. eauto.
Qed.

(** Once the final loop has returned it stays returned, the sink is
    never written again, and a forwarder blocked in its send stays
    blocked. *)
Lemma returned_step l st st' :
  merger st = MReturned → step l st = Some st' →
  merger st' = MReturned ∧ out st' = out st ∧
  ∀ i stat, fwds st !! i = Some (FSend stat) → fwds st' !! i = Some (FSend stat).
Proof.
  intros Hm Hstep. step_inv Hstep; try done.
  all: split; [done|]; split; [done|]; intros k stat Hk.
  all: try done.
  all: match goal with |- context [ <[?i:=_]> _ !! ?j ] => split_index j i end;
       congruence.
Qed.

Lemma returned_run tr st st' :
  merger st = MReturned → run tr st = Some st' →
  merger st' = MReturned ∧ out st' = out st ∧
  ∀ i stat, fwds st !! i = Some (FSend stat) → fwds st' !! i = Some (FSend stat).
Proof.
  revert st. induction tr as [|l tr IH]; intros st Hm Hrun; simpl in Hrun.
  - by simplify_eq.
  - destruct (step l st) as [st1|] eqn:E; [|done].
    destruct (returned_step _ _ _ Hm E) as (Hm1 & Ho1 & Hf1).
    destruct (IH _ Hm1 Hrun) as (Hm2 & Ho2 & Hf2).
    split; [done|]. split; [congruence|]. eauto.
Qed.

(** *** Streams that end before cancellation *)

(** While the context is not cancelled, a stream closes only at its end
    and a forwarder returns only because its stream has closed. *)
Lemma closure_invariant cs st :
  reachable cs st → cancelled st = false →
  (∀ i s, srcs st !! i = Some s → closed s = true → remaining s = []) ∧
  (∀ i, fwds st !! i = Some FDone → ∃ s, srcs st !! i = Some s ∧ closed s = true).
Proof.
  intros Hr. pattern st. revert st Hr. apply reachable_invariant.
  - intros _. split.
    + simpl. intros i s Hs. apply list_lookup_fmap_Some in Hs as (c & -> & Hc). done.
    + simpl. intros i Hs. by apply list_lookup_fmap_Some in Hs as (c & ? & Hc).
  - intros st l st' _ IH Hstep Hc.
    step_inv Hstep; try done; try congruence.
    all: destruct (IH Hc) as [IHs IHf]; clear IH.
    all: split; [intros k s' Hk Hcl | intros k Hk].
    all: try match type of Hk with context [ <[?i:=_]> _ !! ?j ] => revert Hk; split_index j i; intros Hk end.
    all: simplify_eq/=; eauto.
    + rewrite Hc, orb_false_r in *. by case_bool_decide.
    + destruct (IHf _ Hk) as (s & Hs & Hcl).
      split_index k i; [by simplify_eq/= | eauto].
Qed.

(** Counting the records of a sink by the forwarder they came through. *)
Lemma sum_indicator_out (j n : nat) :
  n ≤ j → sum_list_with (λ i, if decide (j = i) then 1 else 0) (seq 0 n) = 0.
Proof.
  induction n as [|n IH]; intros Hj; [done|].
  rewrite seq_S, sum_list_with_app. simpl.
  rewrite IH by lia. destruct (decide (j = n)); lia.
Qed.

Lemma sum_indicator_in (j n : nat) :
  j < n → sum_list_with (λ i, if decide (j = i) then 1 else 0) (seq 0 n) = 1.
Proof.
  induction n as [|n IH]; intros Hj; [lia|].
  rewrite seq_S, sum_list_with_app. simpl.
  destruct (decide (j = n)) as [->|Hne].
  - rewrite sum_indicator_out by lia. lia.
  - rewrite IH by lia. lia.
Qed.

Lemma sum_list_with_plus {A} (f g : A → nat) (l : list A) :
  sum_list_with (λ x, f x + g x) l = sum_list_with f l + sum_list_with g l.
Proof. induction l as [|x l IH]; simpl; lia. Qed.

Lemma count_by_tag {A} (o : list (nat * A)) (n : nat) :
  Forall (λ r, r.1 < n) o →
  length o = sum_list_with (λ i, length (filter (λ r, r.1 = i) o)) (seq 0 n).
Proof.
  induction 1 as [|r o Hr Ho IH].
  - simpl. induction (seq 0 n); simpl; auto.
  - assert (Hsplit :
      sum_list_with (λ i, length (filter (λ r', r'.1 = i) (r :: o))) (seq 0 n)
      = sum_list_with (λ i, if decide (r.1 = i) then 1 else 0) (seq 0 n)
        + sum_list_with (λ i, length (filter (λ r', r'.1 = i) o)) (seq 0 n)).
    { rewrite <- sum_list_with_plus. clear IH.
      induction (seq 0 n) as [|i l IHl]; simpl; [done|]. rewrite IHl. f_equal.
      rewrite filter_cons. by destruct (decide (r.1 = i)). }
    rewrite Hsplit, sum_indicator_in, <- IH by done. done.
Qed.

Lemma sum_over_indices {A} (f : nat → nat) (g : A → nat) (l : list A) :
  (∀ i c, l !! i = Some c → f i = g c) →
  sum_list_with f (seq 0 (length l)) = sum_list_with g l.
Proof.
  induction l as [|x l IH] using rev_ind; intros Hfg; [done|].
  rewrite length_app, Nat.add_1_r, seq_S, !sum_list_with_app. simpl.
  rewrite IH.
  - f_equal. f_equal. apply Hfg. by rewrite list_lookup_middle.
  - intros i c Hi. apply Hfg. rewrite lookup_app_l; [done|].
    by eapply lookup_lt_Some.
Qed.

Lemma total_non_nil_sum cs :
  total_non_nil cs = sum_list_with (λ c, length (non_nil c.2)) cs.
Proof.
  unfold total_non_nil, non_nil. induction cs as [|c cs IH]; simpl; [done|].
  rewrite filter_app, length_app. f_equal. exact IH.
Qed.

(** When every forwarder has returned although the context is not
    cancelled, every stream has been delivered to its end and the final
    loop, back at its select, has written all of it. *)
Lemma drained_written cs st :
  reachable cs st → cancelled st = false →
  all_forwarders_done st → merger st = MSelect →
  ∀ i c, cs !! i = Some c → written i st = non_nil c.2.
Proof.
  intros Hr Hc Hdone Hm i c Hi.
  destruct (shape_invariant _ _ Hr) as (_ & _ & Hlen).
  destruct (closure_invariant _ _ Hr Hc) as [Hcl Hfd].
  assert (is_Some (fwds st !! i)) as [pc Hpc].
  { apply lookup_lt_is_Some. rewrite Hlen. by eapply lookup_lt_Some. }
  pose proof (Hdone _ _ Hpc) as ->.
  destruct (Hfd _ Hpc) as (s & Hs & Hsc).
  pose proof (Hcl _ _ Hs Hsc) as Hrem.
  destruct (source_invariant _ _ Hr _ _ Hs) as (c' & Hc' & Hsplit).
  rewrite Hrem, app_nil_r in Hsplit. simplify_eq.
  pose proof (flow_invariant _ _ Hr i) as Hflow.
  unfold in_flight, at_final_loop, at_forwarder, received in Hflow. rewrite Hm, Hpc, Hs in Hflow.
  simpl in Hflow. by rewrite app_nil_r, Hsplit in Hflow.
Qed.

Lemma drained_count cs st :
  reachable cs st → cancelled st = false →
  all_forwarders_done st → merger st = MSelect →
  length (out st) = total_non_nil cs.
Proof.
  intros Hr Hc Hdone Hm.
  destruct (out_tags _ _ Hr) as [Htags _].
  rewrite (count_by_tag _ _ Htags), total_non_nil_sum.
  apply sum_over_indices. intros i c Hi.
  rewrite <- (drained_written _ _ Hr Hc Hdone Hm _ _ Hi).
  unfold written. by rewrite length_fmap.
Qed.

(** With every forwarder returned, nothing reaches the final loop any
    more: whatever is scheduled next leaves the sink as it is. *)
Lemma drained_step l st st' :
  all_forwarders_done st → merger st = MSelect ∨ merger st = MReturned →
  step l st = Some st' →
  all_forwarders_done st' ∧ (merger st' = MSelect ∨ merger st' = MReturned) ∧
  out st' = out st.
Proof.
  intros Hdone Hm Hstep. unfold all_forwarders_done in *.
  step_inv Hstep; try done.
  all: try match goal with H : fwds _ !! _ = Some _ |- _ =>
               by apply Hdone in H end.
  all: destruct Hm; try congruence; eauto.
Qed.

Lemma drained_run tr st st' :
  all_forwarders_done st → merger st = MSelect ∨ merger st = MReturned →
  run tr st = Some st' → out st' = out st.
Proof.
  revert st. induction tr as [|l tr IH]; intros st Hdone Hm Hrun; simpl in Hrun.
  - by simplify_eq.
  - destruct (step l st) as [st1|] eqn:E; [|done].
    destruct (drained_step _ _ _ Hdone Hm E) as (Hd1 & Hm1 & Ho1).
    rewrite <- Ho1. by apply IH.
Qed.

(** Moves of the other goroutines do not look at forwarder [i]. *)
Lemma same_but_forwarder_step i l st st' st2 :
  same_but_forwarder i st st' → owner l ≠ Some i →
  step l st = Some st2 →
  ∃ st2', step l st' = Some st2' ∧ same_but_forwarder i st2 st2'.
Proof.
  intros (Hc & Hi & Hsr & Hm & Ho & Hfw) Hl E.
  unfold step in *. destruct l; simpl in Hl;
    rewrite ?Hc, ?Hi, ?Hsr, ?Hm, ?Hfw by congruence;
    repeat case_match; simplify_eq; eexists; (split; [reflexivity|]);
    repeat split; simpl; try congruence;
    intros j Hj;
    try match goal with |- context [ <[?a:=_]> _ !! _ ] =>
          destruct (decide (j = a)) as [->|?];
          [ rewrite !list_lookup_insert_eq; [done| |];
            eapply lookup_lt_Some; [| rewrite Hfw by congruence]; eauto
          | rewrite !list_lookup_insert_ne by done; eauto ]
        end; eauto.
Qed.

Lemma same_but_forwarder_run i tr st st' st1 :
  same_but_forwarder i st st' →
  Forall (λ l, owner l ≠ Some i) tr →
  run tr st = Some st1 →
  ∃ st1', run tr st' = Some st1' ∧ same_but_forwarder i st1 st1'.
Proof.
  revert st st'. induction tr as [|l tr IH]; intros st st' Hsame Hown Hrun.
  - unfold run in Hrun; simpl in Hrun. simplify_eq. by exists st'.
  - apply Forall_cons in Hown as [Hl Hown].
    unfold run in Hrun; simpl in Hrun.
    destruct (step l st) as [st2|] eqn:E; [|done].
    destruct (same_but_forwarder_step _ _ _ _ _ Hsame Hl E) as (st2' & E' & Hsame2).
    destruct (IH _ _ Hsame2 Hown Hrun) as (st1' & Hrun' & Hsame1).
    exists st1'. split; [|done]. unfold run; simpl. by rewrite E'.
Qed.

(** *** What has reached the final loop gets written *)

Lemma committed_step l st st' :
  step l st = Some st' → committed st `prefix_of` committed st'.
Proof.
  intros Hstep.
  step_inv Hstep; unfold committed; simpl;
    repeat match goal with H : merger _ = _ |- _ => rewrite H end;
    rewrite ?app_nil_r; try done.
  destruct stat; [by apply prefix_app_r | by rewrite app_nil_r].
Qed.

Lemma committed_run tr st st' :
  run tr st = Some st' → committed st `prefix_of` committed st'.
Proof.
  revert st. induction tr as [|l tr IH]; intros st Hrun.
  - unfold run in Hrun; simpl in Hrun. by simplify_eq.
  - unfold run in Hrun; simpl in Hrun.
    destruct (step l st) as [st1|] eqn:E; [|done].
    etrans; [by eapply committed_step | by apply IH].
Qed.

Lemma committed_written i st :
  (snd <$> filter (λ r, fst r = i) (committed st))
  = written i st ++ non_nil (at_final_loop i st).
Proof.
  unfold committed, written, at_final_loop, non_nil.
  destruct (merger st) as [|j [v|]|]; rewrite ?app_nil_r; try done.
  - rewrite written_snoc. by case_bool_decide.
  - case_bool_decide; simpl; by rewrite app_nil_r.
Qed.

(** Whatever the final loop has written or taken from the shared channel
    is in the sink when it returns. *)
Lemma handed_over_is_written tr st st' i :
  run tr st = Some st' → merger st' = MReturned →
  (written i st ++ non_nil (at_final_loop i st)) `prefix_of` written i st'.
Proof.
  intros Hrun Hm.
  destruct (committed_run _ _ _ Hrun) as [k Hk].
  rewrite <- committed_written.
  assert (committed st' = out st') as Hout.
  { unfold committed. by rewrite Hm, app_nil_r. }
  unfold written. rewrite <- Hout, Hk, filter_app, fmap_app. by eexists.
Qed.

(** *** Every stream can be served to its end *)

Lemma run_cons l tr st st1 :
  step l st = Some st1 → run (l :: tr) st = run tr st1.
Proof. intros H. unfold run. simpl. by rewrite H. Qed.

Lemma run_concat tr1 tr2 st st1 :
  run tr1 st = Some st1 → run (tr1 ++ tr2) st = run tr2 st1.
Proof. intros H. unfold run in *. by rewrite run_app, H. Qed.

Lemma serve_values i (items del : list (option Stats)) st :
  fwds st !! i = Some FSelect →
  srcs st !! i = Some (Source del items false) →
  is_Some (ids st !! i) →
  merger st = MSelect →
  ∃ st', run (concat (replicate (length items) [SrcSend i; Forward i; MergeHandle])) st
         = Some st' ∧
         fwds st' = fwds st ∧
         srcs st' = <[i:=Source (del ++ items) [] false]> (srcs st) ∧
         merger st' = MSelect ∧ cancelled st' = cancelled st ∧ ids st' = ids st.
Proof.
  revert del st. induction items as [|x items IH]; intros del st Hf Hs [id Hid] Hm.
  - exists st. rewrite app_nil_r. repeat split; try done.
    symmetry. by apply list_insert_id.
  - pose proof (lookup_lt_Some _ _ _ Hf) as Hlf.
    pose proof (lookup_lt_Some _ _ _ Hs) as Hls.
    set (st1 := set_fwd i (FSend x)
                  (write_log (LogReceived id)
                     (set_src i (Source (del ++ [x]) items false) st))).
    set (st2 := set_merger (MGot i x) (set_fwd i FSelect st1)).
    set (st3 := match x with
                | None => set_merger MSelect st2
                | Some v => set_merger MSelect (write_out i (Some v) st2)
                end).
    assert (H1 : step (SrcSend i) st = Some st1).
    { unfold step. by rewrite Hs, Hf, Hid. }
    assert (H2 : step (Forward i) st1 = Some st2).
    { unfold step, st1; simpl. by rewrite list_lookup_insert_eq, Hm. }
    assert (H3 : step MergeHandle st2 = Some st3).
    { unfold step, st2, st3; simpl. by destruct x. }
    assert (Hf3 : fwds st3 = fwds st).
    { unfold st3, st2, st1. destruct x; simpl;
        by rewrite list_insert_insert_eq, list_insert_id. }
    assert (Hs3 : srcs st3 = <[i:=Source (del ++ [x]) items false]> (srcs st)).
    { unfold st3, st2, st1. by destruct x. }
    destruct (IH (del ++ [x]) st3) as (st' & Hrun & Hf' & Hs' & Hm' & Hc' & Hi').
    + by rewrite Hf3.
    + rewrite Hs3. by apply list_lookup_insert_eq.
    + exists id. unfold st3, st2, st1. by destruct x.
    + unfold st3. by destruct x.
    + exists st'. split.
      { cbn [length replicate concat app].
        by rewrite (run_cons _ _ _ _ H1), (run_cons _ _ _ _ H2), (run_cons _ _ _ _ H3). }
      split; [congruence|]. split.
      { rewrite Hs', Hs3, list_insert_insert_eq, <- app_assoc. done. }
      split; [done|]. split.
      { rewrite Hc'. unfold st3, st2, st1. by destruct x. }
      { rewrite Hi'. unfold st3, st2, st1. by destruct x. }
Qed.

Lemma drain_one_run i (items del : list (option Stats)) st :
  fwds st !! i = Some FStart →
  srcs st !! i = Some (Source del items false) →
  is_Some (ids st !! i) →
  merger st = MSelect →
  ∃ st', run (drain_one i (length items)) st = Some st' ∧
         fwds st' = <[i:=FDone]> (fwds st) ∧
         srcs st' = <[i:=Source (del ++ items) [] true]> (srcs st) ∧
         merger st' = MSelect ∧ cancelled st' = cancelled st ∧ ids st' = ids st.
Proof.
  intros Hf Hs [id Hid] Hm.
  pose proof (lookup_lt_Some _ _ _ Hf) as Hlf.
  pose proof (lookup_lt_Some _ _ _ Hs) as Hls.
  set (st1 := set_fwd i FSelect (write_log (LogListening id) st)).
  assert (H1 : step (FwdStart i) st = Some st1).
  { unfold step. by rewrite Hf, Hid. }
  destruct (serve_values i items del st1) as (st2 & Hrun & Hf2 & Hs2 & Hm2 & Hc2 & Hi2).
  { unfold st1; simpl. by apply list_lookup_insert_eq. }
  { done. }
  { by exists id. }
  { done. }
  set (st3 := set_src i (Source (del ++ items) [] true) st2).
  assert (H3 : step (SrcClose i) st2 = Some st3).
  { unfold step. rewrite Hs2. simpl. by rewrite list_lookup_insert_eq. }
  set (st4 := set_fwd i FDone (write_log (LogNoLonger id) st3)).
  assert (H4 : step (FwdClosed i) st3 = Some st4).
  { unfold step, st3; simpl. rewrite list_lookup_insert_eq.
    - rewrite Hf2, Hi2. unfold st1; simpl.
      by rewrite list_lookup_insert_eq, Hid.
    - rewrite Hs2. by rewrite length_insert. }
  exists st4. split.
  { unfold drain_one.
    rewrite (run_cons _ _ _ _ H1), (run_concat _ _ _ _ Hrun).
    by rewrite (run_cons _ _ _ _ H3), (run_cons _ _ _ _ H4). }
  split.
  { unfold st4, st3; simpl. rewrite Hf2. unfold st1; simpl.
    by rewrite list_insert_insert_eq. }
  split.
  { unfold st4, st3; simpl. rewrite Hs2. by rewrite list_insert_insert_eq. }
  repeat split; unfold st4, st3; simpl; rewrite ?Hm2, ?Hc2, ?Hi2; done.
Qed.

Lemma drain_from_run (streams : list (list (option Stats))) k st :
  merger st = MSelect → cancelled st = false →
  (∀ j s, streams !! j = Some s →
          fwds st !! (k + j) = Some FStart ∧
          srcs st !! (k + j) = Some (Source [] s false) ∧
          is_Some (ids st !! (k + j))) →
  ∃ st', run (drain_from k streams) st = Some st' ∧
         merger st' = MSelect ∧ cancelled st' = false ∧
         length (fwds st') = length (fwds st) ∧
         (∀ j, j < length streams → fwds st' !! (k + j) = Some FDone) ∧
         (∀ j, j < k → fwds st' !! j = fwds st !! j).
Proof.
  revert k st. induction streams as [|s rest IH]; intros k st Hm Hc Hall.
  - exists st. repeat split; try done. simpl. lia.
  - destruct (Hall 0 s eq_refl) as (Hf & Hs & Hid). rewrite Nat.add_0_r in *.
    destruct (drain_one_run k s [] st Hf Hs Hid Hm)
      as (st1 & Hrun1 & Hf1 & Hs1 & Hm1 & Hc1 & Hi1).
    destruct (IH (S k) st1) as (st' & Hrun & Hm' & Hc' & Hlen & Hdone & Hkeep).
    + done.
    + congruence.
    + intros j s' Hj. destruct (Hall (S j) s' Hj) as (Hfj & Hsj & Hidj).
      replace (S k + j) with (k + S j) by lia.
      rewrite Hf1, Hs1, Hi1, !list_lookup_insert_ne by lia. done.
    + exists st'. split.
      { cbn [drain_from]. by rewrite (run_concat _ _ _ _ Hrun1). }
      split; [done|]. split; [done|]. split.
      { rewrite Hlen, Hf1. apply length_insert. }
      split.
      * intros [|j] Hj.
        -- rewrite Nat.add_0_r, Hkeep, Hf1 by lia.
           apply list_lookup_insert_eq. by eapply lookup_lt_Some.
        -- replace (k + S j) with (S k + j) by lia. apply Hdone. simpl in Hj. lia.
      * intros j Hj. rewrite Hkeep, Hf1 by lia. apply list_lookup_insert_ne. lia.
Qed.

(** Serving one container after the other reaches, with the context not
    cancelled, a state where every forwarder has returned and the final
    loop is at its select. *)
Lemma drain_all_run cs :
  ∃ st, run (drain_all cs) (logStatsForContainers cs) = Some st ∧
        cancelled st = false ∧ all_forwarders_done st ∧ merger st = MSelect.
Proof.
  destruct (drain_from_run (snd <$> cs) 0 (logStatsForContainers cs))
    as (st & Hrun & Hm & Hc & Hlen & Hdone & _); [done|done| |].
  - intros j s Hj. apply list_lookup_fmap_Some in Hj as (c & -> & Hc).
    simpl. rewrite !list_lookup_fmap, Hc. simpl. eauto.
  - exists st. split; [done|]. split; [done|]. split; [|done].
    intros i pc Hi.
    assert (i < length (snd <$> cs)) as Hlt.
    { apply lookup_lt_Some in Hi. rewrite Hlen in Hi. simpl in Hi.
      by rewrite !length_fmap in *. }
    specialize (Hdone i Hlt). simpl in Hdone. congruence.
Qed.

(** A cancelled context stays cancelled. *)
Lemma cancelled_run tr st st' :
  cancelled st = true → run tr st = Some st' → cancelled st' = true.
Proof.
  revert st. induction tr as [|l tr IH]; intros st Hc Hrun.
  - unfold run in Hrun; simpl in Hrun. by simplify_eq.
  - unfold run in Hrun; simpl in Hrun.
    destruct (step l st) as [st1|] eqn:E; [|done].
    apply (IH st1); [|done]. step_inv E; done.
Qed.

(** *** The claims about logStatsForContainers *)


(** The final loop on its own: a schedule of its moves alone uses up the
    moves it has left, touches no forwarder and no stream, and writes at
    most the value the loop holds. *)
Lemma merge_only_run tr st st' :
  forallb merge_only tr = true → run tr st = Some st' →
  length tr + moves_left st' = moves_left st ∧
  fwds st' = fwds st ∧ srcs st' = srcs st ∧
  (out st' = out st ∨ out st' = committed st).
Proof.
  revert st. induction tr as [|l tr IH]; intros st Hmo Hrun.
  - unfold run in Hrun; simpl in Hrun. simplify_eq. by auto.
  - simpl in Hmo. apply andb_true_iff in Hmo as [Hl Hmo].
    unfold run in Hrun; simpl in Hrun.
    destruct (step l st) as [st1|] eqn:E; [|done].
    destruct (IH st1 Hmo Hrun) as (Hlen & Hf & Hs & Ho).
    rewrite Hf, Hs.
    destruct l; try discriminate Hl.
    + unfold step in E. unfold moves_left, committed in *.
      destruct (merger st) as [|j [v|]|] eqn:Em; simplify_eq; simpl in *.
      * rewrite app_nil_r in Ho. split; [lia|]. repeat split; destruct Ho; auto.
      * rewrite app_nil_r in *. split; [lia|]. repeat split; destruct Ho; auto.
    + unfold step in E. unfold moves_left, committed in *.
      destruct (merger st) as [|j v|] eqn:Em; [|done|done].
      destruct (cancelled st); simplify_eq; simpl in *.
      rewrite app_nil_r in *. split; [lia|]. repeat split; destruct Ho; auto.
Qed.

(** C3 (as amended).  With the context cancelled, the final loop at its
    select can take the cancellation case whatever the forwarders are
    doing; taking it returns without touching the sink, the forwarders or
    the values they are waiting to send.  The context stays cancelled, so
    this holds at every later visit of the select.  From any point the loop
    reaches the return by at most two moves of its own, none of which needs
    a forwarder, and every schedule of its own moves alone has at most two
    moves, leaves forwarders and streams as they are and writes at most the
    value the loop holds.  Once returned it never consumes again: it stays
    returned, the sink stays as it is, and a value pending in a forwarder
    stays pending.  The loop is not bound to take the cancellation case:
    with a forwarder parked in its send the receive case of the select is
    ready as well, and taking it consumes the pending snapshot and writes
    it although the context is cancelled. *)
Theorem merge_loop_returns_on_cancel st :
  cancelled st = true →
  (merger st = MSelect →
     ∃ st', step MergeDone st = Some st' ∧ merger st' = MReturned ∧
            out st' = out st ∧ fwds st' = fwds st ∧ srcs st' = srcs st) ∧
  (∀ tr st', run tr st = Some st' → cancelled st' = true) ∧
  (merger st ≠ MReturned →
     ∃ tr st', length tr ≤ 2 ∧ forallb merge_only tr = true ∧
               run tr st = Some st' ∧ merger st' = MReturned ∧
               fwds st' = fwds st ∧ srcs st' = srcs st) ∧
  (merger st = MReturned →
     ∀ tr st', run tr st = Some st' →
       merger st' = MReturned ∧ out st' = out st ∧
       ∀ i stat, fwds st !! i = Some (FSend stat) →
                 fwds st' !! i = Some (FSend stat)) ∧
  (∀ tr st', forallb merge_only tr = true → run tr st = Some st' →
     length tr ≤ 2 ∧ fwds st' = fwds st ∧ srcs st' = srcs st ∧
     (out st' = out st ∨ out st' = committed st)) ∧
  (merger st = MSelect →
     ∀ i v, fwds st !! i = Some (FSend (Some v)) →
       ∃ st', run [Forward i; MergeHandle] st = Some st' ∧
              cancelled st' = true ∧ merger st' = MSelect ∧
              fwds st' !! i = Some FSelect ∧
              out st' = out st ++ [(i, Some v)]).
Proof.
  intros Hc. split; [|split; [|split; [|split; [|split]]]].
  - intros Hm. eexists. unfold step. rewrite Hm, Hc. by repeat split.
  - intros tr st'. by apply cancelled_run.
  - intros Hm. destruct (merger st) as [|j [v|]|] eqn:E; [| | |done].
    + exists [MergeDone]. eexists. split; [simpl; lia|]. split; [done|].
      unfold run; simpl. rewrite E, Hc. by repeat split.
    + exists [MergeHandle; MergeDone]. eexists. split; [simpl; lia|]. split; [done|].
      unfold run; simpl. rewrite E. simpl. rewrite Hc. by repeat split.
    + exists [MergeHandle; MergeDone]. eexists. split; [simpl; lia|]. split; [done|].
      unfold run; simpl. rewrite E. simpl. rewrite Hc. by repeat split.
  - intros Hm tr st' Hrun. by apply (returned_run tr st).
  - intros tr st' Hmo Hrun.
    destruct (merge_only_run tr st st' Hmo Hrun) as (Hlen & Hf & Hs & Ho).
    split; [|by auto].
    unfold moves_left in Hlen. destruct (merger st), (merger st'); lia.
  - intros Hm i v Hf. eexists. split.
    + unfold run; simpl. rewrite Hf, Hm. simpl. reflexivity.
    + simpl. split; [done|]. split; [done|]. split; [|done].
      apply list_lookup_insert_eq. by eapply lookup_lt_Some.
Qed.

(** C4.  When the stream of container [i] has closed and its forwarder
    is at the select, the forwarder can take the closed-channel case:
    it logs "Container ... is no longer streaming" and returns, and
    nothing else changes (the other forwarders, the streams, the final
    loop and the sink are as before).  Any schedule of the other
    containers and of the final loop that was possible with forwarder
    [i] still there is possible without it and writes the same records. *)
Theorem closed_stream_ends_only_its_forwarder st i s id :
  srcs st !! i = Some s → closed s = true →
  fwds st !! i = Some FSelect → ids st !! i = Some id →
  ∃ st', step (FwdClosed i) st = Some st' ∧
         log st' = log st ++ [LogNoLonger id] ∧
         fwds st' = <[i:=FDone]> (fwds st) ∧
         same_but_forwarder i st st' ∧
         ∀ tr st1,
           Forall (λ l, owner l ≠ Some i) tr →
           run tr st = Some st1 →
           ∃ st1', run tr st' = Some st1' ∧ same_but_forwarder i st1 st1'.
Proof.
  intros Hs Hcl Hf Hid. eexists. split.
  { unfold step. rewrite Hs, Hf, Hid. destruct s; simpl in *. by rewrite Hcl. }
  split; [done|]. split; [done|].
  assert (Hsame : same_but_forwarder i st
                    (set_fwd i FDone (write_log (LogNoLonger id) st))).
  { repeat split. intros j Hj. simpl. by rewrite list_lookup_insert_ne. }
  split; [done|].
  intros tr st1 Hown Hrun. by eapply same_but_forwarder_run.
Qed.

(** C10.  A forwarder blocked in [statsChan <- stat] after the final
    loop has returned stays there for ever: in every state that any
    schedule can reach, it still holds the same value in the same send,
    none of its own moves is possible (the send has no receiver and is
    not inside a select, so neither the cancellation nor the close of its
    stream can end it), and the final loop is still returned.  Nothing is
    assumed about the context or the stream: both may be cancelled and
    closed. *)
Theorem blocked_forwarder_never_terminates st i stat :
  fwds st !! i = Some (FSend stat) → merger st = MReturned →
  ∀ tr st', run tr st = Some st' →
    fwds st' !! i = Some (FSend stat) ∧
    merger st' = MReturned ∧
    ∀ l, moves_forwarder i l = true → step l st' = None.
Proof.
  intros Hf Hm tr st' Hrun.
  destruct (returned_run _ _ _ Hm Hrun) as (Hm' & _ & Hf').
  specialize (Hf' _ _ Hf). split; [done|]. split; [done|].
  intros l Hl. unfold step. destruct l; simpl in Hl; try done.
  all: apply bool_decide_eq_true_1 in Hl as ->.
  all: rewrite Hf', ?Hm'; simpl; try done.
  all: by repeat case_match.
Qed.
End CollectorFacts.

(** ** statsForContainers *)
Section RefetcherFacts.
Import Refetcher.
Context {Stats : Type}.
Implicit Types (st : state Stats) (tr : list label).
Implicit Types (cs : list (string * list (list (option Stats)))).

Ltac step_inv H :=
  unfold step, step_live in H; repeat case_match; simplify_eq; simpl in *.

Ltac split_index k i :=
  destruct (decide (k = i)) as [->|?];
  [ rewrite ?list_lookup_insert_eq by (by eapply lookup_lt_Some)
  | rewrite ?list_lookup_insert_ne by done ].

Lemma refetch_shape cs st :
  reachable cs st → length (fwds st) = length cs.
Proof.
  intros Hr. pattern st. revert st Hr. apply reachable_from_ind.
  - simpl. by rewrite length_fmap.
  - intros st l st' _ IH Hstep.
    step_inv Hstep; rewrite ?length_insert; done.
Qed.

Lemma refetch_step_keeps_out_non_nil l st st' :
  step l st = Some st' →
  Forall (λ r, is_Some r.2) (out st) → Forall (λ r, is_Some r.2) (out st').
Proof.
  intros Hstep Hout. step_inv Hstep; try done.
  apply Forall_app; split; [done|]. by repeat constructor.
Qed.

Lemma refetch_out_non_nil cs st :
  reachable cs st → Forall (λ r, is_Some r.2) (out st).
Proof.
  intros Hr. pattern st. revert st Hr. apply reachable_from_ind.
  - constructor.
  - intros st l st' _ IH Hstep. by eapply refetch_step_keeps_out_non_nil.
Qed.

Lemma refetch_out_tags cs st :
  reachable cs st →
  Forall (λ r, r.1 < length cs) (out st) ∧
  ∀ j stat, merger st = MGot j stat → j < length cs.
Proof.
  intros Hr. pattern st. revert st Hr. apply reachable_from_ind.
  - split; [constructor | done].
  - intros st l st' Hr [IHo IHm] Hstep.
    pose proof (refetch_shape _ _ Hr) as Hlen.
    step_inv Hstep; try done.
    + split; [done|]. intros j s ?; simplify_eq.
      rewrite <- Hlen. by eapply lookup_lt_Some.
    + split; [|done]. apply Forall_app; split; [done|].
      repeat constructor. simpl. eauto.
Qed.

Lemma refetch_written_snoc k j v (o : list (nat * option Stats)) :
  (snd <$> filter (λ r, fst r = k) (o ++ [(j, v)]))
  = (snd <$> filter (λ r, fst r = k) o) ++ (if bool_decide (j = k) then [v] else []).
Proof.
  rewrite filter_app, fmap_app. f_equal.
  rewrite filter_cons, filter_nil. simpl.
  destruct (decide (j = k)); by case_bool_decide.
Qed.

(** The values forwarder [k] received that are not nil are, in order:
    those written, the one the final loop holds, the one the forwarder
    holds. *)
Lemma refetch_flow_invariant cs st :
  reachable cs st →
  ∀ k, written k st ++ non_nil (in_flight k st) = non_nil (received k st).
Proof.
  intros Hr. pattern st. revert st Hr. apply reachable_from_ind.
  - intros k. unfold written, in_flight, received; simpl.
    rewrite !list_lookup_fmap. by destruct (cs !! k).
  - intros st l st' _ IH Hstep k. specialize (IH k).
    step_inv Hstep; unfold written, in_flight, received in *;
      simpl in *; rewrite ?refetch_written_snoc.
    all: try done.
    all: try match goal with |- context [ <[?i:=_]> _ !! ?j ] => split_index j i end.
    all: repeat match goal with
           | H : _ !! _ = Some _ |- _ => rewrite H in IH
           | H : merger _ = _ |- _ => rewrite H in IH
           | H : pc _ = _ |- _ => rewrite H in IH
           end; simpl in *.
    all: rewrite ?bool_decide_eq_true_2 in * by done.
    all: rewrite ?bool_decide_eq_false_2 in * by done.
    all: try done.
    all: repeat match goal with H : ?x = _ |- context [?x] => rewrite H end.
    all: repeat case_bool_decide; simplify_eq.
    all: unfold non_nil in *; simpl in *.
    all: rewrite ?app_nil_r in *; rewrite <- ?app_assoc in *; simpl; try done.
    all: try (rewrite <- IH; by rewrite <- ?app_assoc).
    all: rewrite !filter_app, <- ?IH; simpl.
    all: by rewrite ?app_nil_r, <- ?app_assoc.
Qed.
End RefetcherFacts.

(** ** Both collectors *)

(** C2 (as amended).  In both collectors, in every reachable state: every
    record in the sink came through the forwarder of one container of the
    call and is a value that forwarder received from that container's
    stream; for every container, the non-nil values its forwarder has
    received are, in the order of their arrival, exactly the records
    written for it followed by the values still inside the collector.  So
    a received snapshot is written at most once and in stream order, and
    it is written exactly once unless it is nil or still inside the
    collector. *)
Theorem snapshots_written_in_stream_order_at_most_once :
  (∀ Stats (cs : list (string * list (option Stats))) (st : Collector.state Stats),
     Collector.reachable cs st →
     (∀ r, r ∈ Collector.out st →
           (∃ c, cs !! r.1 = Some c) ∧ r.2 ∈ Collector.received r.1 st) ∧
     (∀ i, Collector.written i st ++ Collector.non_nil (Collector.in_flight i st)
           = Collector.non_nil (Collector.received i st)) ∧
     (∀ i, Collector.written i st `prefix_of` Collector.non_nil (Collector.received i st))) ∧
  (∀ Stats (cs : list (string * list (list (option Stats)))) (st : Refetcher.state Stats),
     Refetcher.reachable cs st →
     (∀ r, r ∈ Refetcher.out st →
           (∃ c, cs !! r.1 = Some c) ∧ r.2 ∈ Refetcher.received r.1 st) ∧
     (∀ i, Refetcher.written i st ++ Refetcher.non_nil (Refetcher.in_flight i st)
           = Refetcher.non_nil (Refetcher.received i st)) ∧
     (∀ i, Refetcher.written i st `prefix_of` Refetcher.non_nil (Refetcher.received i st))).
Proof.
  split.
  - intros Stats cs st Hr.
    pose proof (flow_invariant cs st Hr) as Hflow.
    destruct (out_tags cs st Hr) as [Htags _].
    split; [|split].
    + intros r Hin. split.
      * apply lookup_lt_is_Some. by eapply (proj1 (Forall_forall _ _) Htags).
      * eapply written_origin; [done|]. apply (Hflow r.1).
    + done.
    + intros i. rewrite <- Hflow. by eexists.
  - intros Stats cs st Hr.
    pose proof (refetch_flow_invariant cs st Hr) as Hflow.
    destruct (refetch_out_tags cs st Hr) as [Htags _].
    split; [|split].
    + intros r Hin. split.
      * apply lookup_lt_is_Some. by eapply (proj1 (Forall_forall _ _) Htags).
      * eapply written_origin; [done|]. apply (Hflow r.1).
    + done.
    + intros i. rewrite <- Hflow. by eexists.
Qed.

(** C5.  In both collectors no reachable state has a nil in the sink.  The
    final loop, holding a nil, goes back to its select without writing and
    without logging; in statsForContainers the forwarder that receives a
    nil from its stream stays at its select, again without a word. *)
Theorem nil_snapshots_never_written :
  (∀ Stats (cs : list (string * list (option Stats))) (st : Collector.state Stats),
     Collector.reachable cs st →
     Forall (λ r, is_Some r.2) (Collector.out st)) ∧
  (∀ Stats (st : Collector.state Stats) i,
     Collector.merger st = Collector.MGot i None →
     Collector.step Collector.MergeHandle st
     = Some (Collector.set_merger Collector.MSelect st)) ∧
  (∀ Stats (cs : list (string * list (list (option Stats)))) (st : Refetcher.state Stats),
     Refetcher.reachable cs st →
     Forall (λ r, is_Some r.2) (Refetcher.out st)) ∧
  (∀ Stats (st : Refetcher.state Stats) i,
     Refetcher.panicked st = false →
     Refetcher.merger st = Refetcher.MGot i None →
     Refetcher.step Refetcher.MergeHandle st
     = Some (Refetcher.set_merger Refetcher.MSelect st)) ∧
  (∀ Stats (st : Refetcher.state Stats) i k f id rest,
     Refetcher.panicked st = false →
     Refetcher.fwds st !! i = Some f → Refetcher.ids st !! i = Some id →
     Refetcher.pc f = Refetcher.FSelect →
     Refetcher.is_closed (Refetcher.contStats f) f = false →
     Refetcher.subs f !! k
     = Some (Refetcher.SubStreaming (Refetcher.contStats f) (None :: rest)) →
     ∃ st', Refetcher.step (Refetcher.SubSend i k) st = Some st' ∧
            Refetcher.out st' = Refetcher.out st ∧
            Refetcher.log st' = Refetcher.log st ∧
            Refetcher.merger st' = Refetcher.merger st ∧
            Refetcher.pc <$> Refetcher.fwds st' !! i = Some Refetcher.FSelect).
Proof.
  split; [|split; [|split; [|split]]].
  - intros Stats cs st. apply out_non_nil.
  - intros Stats st i Hm. unfold Collector.step. by rewrite Hm.
  - intros Stats cs st. apply refetch_out_non_nil.
  - intros Stats st i Hp Hm. unfold Refetcher.step, Refetcher.step_live.
    by rewrite Hp, Hm.
  - intros Stats st i k f id rest Hp Hf Hid Hpc Hcl Hsub.
    eexists. split.
    { unfold Refetcher.step, Refetcher.step_live.
      rewrite Hp, Hf, Hid, Hsub, Hcl, Hpc.
      by rewrite bool_decide_eq_true_2. }
    repeat split. simpl.
    rewrite list_lookup_insert_eq by (by eapply lookup_lt_Some). done.
Qed.

(** ** Runs that decide the claims *)


(** C2, the sentence as worded fails for statsForContainers in the same
    way: the snapshot received by the forwarder has not been handed over
    when the final loop returns, and is written zero times. *)
Lemma received_snapshot_never_written :
  ¬ AsWorded.every_received_snapshot_written_once.
Proof.
  intros H.
  assert (Hrun : ∃ st, Refetcher.run Runs.refetch_pending_then_returned
                         (Refetcher.statsForContainers Runs.refetch_one_pending)
                       = Some st ∧
                       Refetcher.merger st = Refetcher.MReturned ∧
                       Refetcher.written 0 st = [] ∧
                       Refetcher.received 0 st = [Some 7]).
  { eexists. split; [vm_compute; reflexivity|]. by vm_compute. }
  destruct Hrun as (st & Hrun & Hm & Hw & Hrecv).
  specialize (H Runs.refetch_one_pending st (ex_intro _ _ Hrun) Hm 0).
  rewrite Hw, Hrecv in H. vm_compute in H. discriminate H.
Qed.

(** C3, the sentence as worded fails: the stream delivers two snapshots;
    the final loop is writing the first and the forwarder has received the
    second when the context is cancelled.  Back at its select the final
    loop finds a forwarder parked in its send and the context done; select
    takes the receive case, and the second snapshot is consumed and
    written after the cancellation. *)
Lemma cancelled_loop_still_consumes :
  ¬ AsWorded.final_loop_consumes_nothing_after_cancellation.
Proof.
  intros H.
  assert (Hrun : ∃ st1 st2,
             Collector.run Runs.cancelled_during_write
               (Collector.logStatsForContainers Runs.two_snapshots) = Some st1 ∧
             Collector.cancelled st1 = true ∧
             Collector.run Runs.receive_case_taken st1 = Some st2 ∧
             Collector.committed st1 = [(0, Some 1)] ∧
             Collector.out st2 = [(0, Some 1); (0, Some 7)]).
  { eexists. eexists. split; [vm_compute; reflexivity|].
    split; [reflexivity|]. split; [vm_compute; reflexivity|].
    split; reflexivity. }
  destruct Hrun as (st1 & st2 & Hrun1 & Hc & Hrun2 & Hcommitted & Hout).
  specialize (H Runs.two_snapshots _ st1 _ st2 Hrun1 Hc Hrun2).
  rewrite Hcommitted, Hout in H. destruct H as [k Hk].
  by destruct k as [|? [|? k]].
Qed.


(** C2 on two runs: the stream with a nil in logStatsForContainers, its
    third value still in the forwarder, and one snapshot written by
    statsForContainers. *)
Lemma stream_order_on_two_runs :
  (∃ st, Collector.run Runs.third_value_pending
           (Collector.logStatsForContainers Runs.with_nil) = Some st ∧
         Collector.received 0 st = [Some 1; None; Some 2] ∧
         Collector.written 0 st = [Some 1] ∧
         Collector.written 0 st ++ Collector.non_nil (Collector.in_flight 0 st)
         = Collector.non_nil (Collector.received 0 st)) ∧
  (∃ st, Refetcher.run Runs.refetch_one_written
           (Refetcher.statsForContainers Runs.refetch_one_pending) = Some st ∧
         Refetcher.out st = [(0, Some 7)] ∧
         Some 7 ∈ Refetcher.received 0 st).
Proof.
  destruct snapshots_written_in_stream_order_at_most_once as [HL HS].
  split.
  - eexists. split; [vm_compute; reflexivity|].
    split; [reflexivity|]. split; [reflexivity|].
    match goal with |- context [Collector.written 0 ?s] => set (st := s) end.
    assert (Hr : Collector.reachable Runs.with_nil st).
    { exists Runs.third_value_pending. vm_compute. reflexivity. }
    destruct (HL nat Runs.with_nil st Hr) as (_ & Hflow & _).
    exact (Hflow 0).
  - eexists. split; [vm_compute; reflexivity|].
    split; [reflexivity|].
    match goal with |- context [Refetcher.received 0 ?s] => set (st := s) end.
    assert (Hr : Refetcher.reachable Runs.refetch_one_pending st).
    { exists Runs.refetch_one_written. vm_compute. reflexivity. }
    destruct (HS nat Runs.refetch_one_pending st Hr) as (Horigin & _ & _).
    apply (Horigin (0, Some 7)). left.
Defined.

(** C3 on the run with the pending snapshot: after [cancel] the final loop
    can return at once; when it does, the sink is still empty and the
    forwarder still holds its snapshot, whatever is scheduled afterwards. *)
Lemma merge_loop_leaves_pending_snapshot :
  ∃ st, Collector.run (Runs.pending_before_cancel ++ [Collector.Cancel])
          (Collector.logStatsForContainers Runs.one_pending) = Some st ∧
        Collector.cancelled st = true ∧
        Collector.merger st = Collector.MSelect ∧
        (∃ tr st', length tr ≤ 2 ∧ Collector.run tr st = Some st' ∧
                   Collector.merger st' = Collector.MReturned) ∧
        ∃ st', Collector.step Collector.MergeDone st = Some st' ∧
               Collector.merger st' = Collector.MReturned ∧
               Collector.out st' = [] ∧
               Collector.fwds st' = [Collector.FSend (Some 7)] ∧
               ∀ tr st'', Collector.run tr st' = Some st'' →
                 Collector.out st'' = [] ∧
                 Collector.fwds st'' !! 0 = Some (Collector.FSend (Some 7)).
Proof.
  eexists. split; [vm_compute; reflexivity|].
  split; [reflexivity|]. split; [reflexivity|].
  match goal with |- context [Collector.step _ ?s] => set (st := s) end.
  destruct (merge_loop_returns_on_cancel st eq_refl) as (Hnow & Hstays & Hsoon & _).
  split.
  { destruct Hsoon as (tr & st' & Hlen & _ & Hrun & Hm & _); [discriminate|].
    exists tr, st'. split; [exact Hlen|]. split; [exact Hrun | exact Hm]. }
  destruct (Hnow eq_refl) as (st' & Hstep & Hm & Ho & Hf & _).
  exists st'. split; [exact Hstep|]. split; [exact Hm|].
  split; [rewrite Ho; reflexivity|]. split; [rewrite Hf; reflexivity|].
  intros tr st'' Hrun.
  assert (Hc' : Collector.cancelled st' = true).
  { apply (Hstays [Collector.MergeDone] st'). unfold Collector.run. simpl.
    exact Hstep. }
  destruct (merge_loop_returns_on_cancel st' Hc') as (_ & _ & _ & Hafter & _).
  destruct (Hafter Hm tr st'' Hrun) as (_ & Ho' & Hf').
  split; [rewrite Ho', Ho; reflexivity|].
  apply Hf'. rewrite Hf. reflexivity.
Defined.

(** C4 on two containers: the stream of A has closed; A's forwarder logs
    and returns, and the snapshot of B is still forwarded and written. *)
Lemma other_stream_still_written :
  ∃ st, Collector.run Runs.first_closed
          (Collector.logStatsForContainers Runs.one_closes) = Some st ∧
        ∃ st' st1',
          Collector.step (Collector.FwdClosed 0) st = Some st' ∧
          Collector.log st' = Collector.log st ++ [Collector.LogNoLonger "A"] ∧
          Collector.fwds st' = [Collector.FDone; Collector.FSelect] ∧
          Collector.run [Collector.SrcSend 1; Collector.Forward 1; Collector.MergeHandle] st'
          = Some st1' ∧
          Collector.out st1' = [(1, Some 3)].
Proof.
  eexists. split; [vm_compute; reflexivity|].
  match goal with |- context [Collector.step _ ?s] => set (st := s) end.
  destruct (closed_stream_ends_only_its_forwarder st 0
              (Collector.Source [] [] true) "A" eq_refl eq_refl eq_refl eq_refl)
    as (st' & Hstep & Hlog & Hf & _ & Hsim).
  assert (Hown : Forall (λ l, Collector.owner l ≠ Some 0)
                   [Collector.SrcSend 1; Collector.Forward 1; Collector.MergeHandle]).
  { repeat constructor; simpl; congruence. }
  destruct (Hsim _ _ Hown eq_refl) as (st1' & Hrun & Hsame).
  exists st', st1'. split; [exact Hstep|]. split; [exact Hlog|].
  split; [rewrite Hf; reflexivity|]. split; [exact Hrun|].
  destruct Hsame as (_ & _ & _ & _ & Ho & _). rewrite Ho. reflexivity.
Defined.

(** C10 on the run with the pending snapshot: the context is cancelled,
    the stream has closed, the final loop has returned, and the forwarder
    is in its send for ever. *)
Lemma pending_forwarder_leaks :
  ∃ st, Collector.run Runs.pending_for_ever
          (Collector.logStatsForContainers Runs.one_pending) = Some st ∧
        Collector.cancelled st = true ∧
        Collector.closed <$> Collector.srcs st !! 0 = Some true ∧
        ∀ tr st', Collector.run tr st = Some st' →
                  Collector.fwds st' !! 0 = Some (Collector.FSend (Some 7)) ∧
                  Collector.step (Collector.FwdDone 0) st' = None ∧
                  Collector.step (Collector.FwdClosed 0) st' = None ∧
                  Collector.step (Collector.Forward 0) st' = None.
Proof.
  eexists. split; [vm_compute; reflexivity|].
  split; [reflexivity|]. split; [reflexivity|].
  intros tr st' Hrun.
  match type of Hrun with Collector.run _ ?s = _ => set (st := s) in * end.
  destruct (blocked_forwarder_never_terminates st 0 (Some 7) eq_refl eq_refl tr st' Hrun)
    as (Hf & _ & Hstuck).
  split; [exact Hf|].
  split; [|split]; apply Hstuck; reflexivity.
Defined.

(** C5 on concrete states: the stream with a nil run to the point where
    the final loop holds the nil, and the corresponding states of
    statsForContainers. *)
Lemma nil_dropped_on_concrete_runs :
  (∃ st, Collector.run Runs.nil_at_final_loop
           (Collector.logStatsForContainers Runs.with_nil) = Some st ∧
         Collector.merger st = Collector.MGot 0 None ∧
         Forall (λ r, is_Some r.2) (Collector.out st) ∧
         ∃ st', Collector.step Collector.MergeHandle st = Some st' ∧
                Collector.out st' = [(0, Some 1)]) ∧
  (∃ st, Refetcher.run Runs.refetch_subscribed
           (Refetcher.statsForContainers Runs.refetch_nil_feed) = Some st ∧
         Forall (λ r, is_Some r.2) (Refetcher.out st) ∧
         ∃ st', Refetcher.step (Refetcher.SubSend 0 0) st = Some st' ∧
                Refetcher.out st' = [] ∧ Refetcher.log st' = Refetcher.log st) ∧
  Refetcher.step Refetcher.MergeHandle Runs.refetch_holding_nil
  = Some (Refetcher.set_merger Refetcher.MSelect Runs.refetch_holding_nil).
Proof.
  destruct nil_snapshots_never_written as (HL & HLdrop & HS & HSdrop & HSfwd).
  split; [|split].
  - eexists. split; [vm_compute; reflexivity|]. split; [reflexivity|].
    match goal with |- context [Collector.step _ ?s] => set (st := s) end.
    split.
    + apply (HL nat Runs.with_nil st).
      exists Runs.nil_at_final_loop. vm_compute. reflexivity.
    + eexists. split; [exact (HLdrop nat st 0 eq_refl)|]. reflexivity.
  - eexists. split; [vm_compute; reflexivity|].
    match goal with |- context [Refetcher.step _ ?s] => set (st := s) end.
    split.
    + apply (HS nat Runs.refetch_nil_feed st).
      exists Runs.refetch_subscribed. vm_compute. reflexivity.
    + destruct (HSfwd nat st 0 0 _ "A"%string [Some 4] eq_refl eq_refl eq_refl
                      eq_refl eq_refl eq_refl)
        as (st' & Hstep & Ho & Hl & _).
      exists st'. split; [exact Hstep|]. split; [rewrite Ho; reflexivity | exact Hl].
  - exact (HSdrop nat Runs.refetch_holding_nil 0 eq_refl eq_refl).
Defined.

(** ** The lifecycle verification and the exit status *)
Section GlueFacts.
Import Glue.
Implicit Types (d : daemon) (w : world) (cont : container).

(** Unfolds the monad so that a computation runs on a given world. *)
Ltac run_glue :=
  unfold mbind, mret, M_bind, M_ret, bind, ret, perform, log_Printf, fmt_Printf,
    os_Exit, created_so_far in *; simpl in *.

Lemma streaming_stopAndCheckContainer_result d cont w :
  fst (Streaming.stopAndCheckContainer d cont w)
  = Ret (match inspectContainer d (ID cont) with
         | inr e => Some e
         | inl _ => removeContainer d (ID cont)
         end).
Proof.
  unfold Streaming.stopAndCheckContainer. run_glue.
  destruct (stopContainer d (ID cont)); simpl;
    destruct (inspectContainer d (ID cont)); reflexivity.
Qed.

Lemma repro_stopAndCheckContainer_result d (stop remove : bool) cont w :
  fst (Repro.stopAndCheckContainer_with d stop remove cont w)
  = Ret (match inspectContainer d (ID cont) with
         | inr e => Some e
         | inl _ => if remove then removeContainer d (ID cont) else None
         end).
Proof.
  unfold Repro.stopAndCheckContainer_with. run_glue.
  destruct stop, remove; simpl;
    try destruct (killContainer d (ID cont)); simpl;
    destruct (inspectContainer d (ID cont)); simpl;
    try destruct (removeContainer d (ID cont)); reflexivity.
Qed.

(** The loop of main collects exactly the containers for which
    stopAndCheckContainer returned an error, with the constants as they
    are: those whose inspection failed. *)
Lemma check_all_result d (conts affected : list container) w :
  fst (Repro.check_all d conts affected w)
  = Ret (affected ++ List.filter (inspect_fails d) conts).
Proof.
  revert affected w. induction conts as [|c conts IH]; intros affected w.
  - simpl. by rewrite app_nil_r.
  - simpl. unfold mbind, M_bind, bind.
    pose proof (repro_stopAndCheckContainer_result d
                  Repro.configStopContainer Repro.configRemoveContainer c w) as Hres.
    fold (Repro.stopAndCheckContainer d c) in Hres.
    destruct (Repro.stopAndCheckContainer d c w) as [[err|code] w'] eqn:E;
      simpl in Hres; [|done].
    simplify_eq. rewrite IH. unfold inspect_fails.
    destruct (inspectContainer d (ID c)); simpl; [done|].
    by rewrite <- app_assoc.
Qed.

(** C7.  The second variant of main, started in a fresh world.  When one
    of the calls before the observation window fails (client
    initialisation, image build, either container creation, either start)
    the process exits with status 1 and prints nothing on standard output.
    When they all succeed, the affected containers are those whose
    verification returned an error; with none the process ends with
    status 0, with one or more it exits with status 2 after printing one
    line [# docker inspect <id>] per affected container, in order.
    failOnError exits with status 1 on every error, and so does logFile
    when the file cannot be opened; the variants whose main opens the log
    files exit with status 1 when either cannot be opened. *)
Theorem exit_status_of_the_run d :
  ((¬ ∃ cont1 cont2, Repro.setup_succeeds d cont1 cont2) →
     exit_status (Repro.main d start) = 1%Z ∧
     stdout (snd (Repro.main d start)) = []) ∧
  (∀ cont1 cont2, Repro.setup_succeeds d cont1 cont2 →
     (List.filter (inspect_fails d) [cont1; cont2] = [] →
        exit_status (Repro.main d start) = 0%Z ∧
        stdout (snd (Repro.main d start)) = []) ∧
     (List.filter (inspect_fails d) [cont1; cont2] ≠ [] →
        exit_status (Repro.main d start) = 2%Z ∧
        stdout (snd (Repro.main d start))
        = inspect_commands (List.filter (inspect_fails d) [cont1; cont2]))) ∧
  (∀ err w, fst (Repro.failOnError (Some err) w) = Exit 1%Z) ∧
  (∀ name w err,
     openFile d (name +:+ "-" +:+ now_rfc3339 d) = Some err →
     fst (Repro.logFile d name w) = Exit 1%Z) ∧
  (∀ err,
     openFile d ("statsout-" +:+ now_rfc3339 d) = Some err ∨
     openFile d ("eventsout-" +:+ now_rfc3339 d) = Some err →
     exit_status (Streaming.main d start) = 1%Z ∧
     exit_status (Aggressive.main d start) = 1%Z).
Proof.
  split; [|split; [|split; [|split]]].
  - intros Hfail. unfold Repro.main. run_glue.
    destruct (newClientFromEnv d) eqn:E1; simpl; [done|].
    destruct (buildImage d) eqn:E2; simpl; [done|].
    destruct (createContainer_nth d 0) as [c1|] eqn:E3; simpl; [|done].
    destruct (createContainer_nth d 1) as [c2|] eqn:E4; simpl; [|done].
    destruct (startContainer d (ID c1)) eqn:E5; simpl; [done|].
    destruct (startContainer d (ID c2)) eqn:E6; simpl.
    + unfold Repro.stopAndCheckContainer, Repro.stopAndCheckContainer_with.
      run_glue. by destruct (inspectContainer d (ID c1)).
    + exfalso. apply Hfail. by exists c1, c2.
  - intros c1 c2 (E1 & E2 & E3 & E4 & E5 & E6).
    unfold Repro.main. run_glue.
    rewrite E1; simpl. rewrite E2; simpl. rewrite E3; simpl. rewrite E4; simpl.
    rewrite E5; simpl. rewrite E6; simpl.
    unfold Repro.stopAndCheckContainer, Repro.stopAndCheckContainer_with, inspect_fails.
    run_glue.
    destruct (inspectContainer d (ID c1)); simpl;
      destruct (inspectContainer d (ID c2)); simpl;
      split; intros H; done.
  - done.
  - intros name w err Hopen. unfold Repro.logFile. run_glue. by rewrite Hopen.
  - intros err Hopen.
    unfold Streaming.main, Streaming.logFiles, Aggressive.main, Aggressive.fail.
    run_glue.
    destruct (openFile d ("statsout-" +:+ now_rfc3339 d)) eqn:Es; simpl; [done|].
    destruct Hopen as [Hopen|Hopen]; [done|]. by rewrite Hopen.
Qed.


(** C8 (as amended).  The timeout is [callTimeoutSecs] seconds: 15 in the
    second variant, 10 in the first.  In the second variant every kill
    and inspect call of stopAndCheckContainer carries a context with the
    15-second timeout, whatever the two constants are.  In the first
    variant the stop call takes no context, only the number 10 as the
    daemon's own stop timeout, and the inspect call carries a context with
    a 10-second timeout; the remove call follows when the inspection
    succeeded. *)
Theorem lifecycle_calls_and_their_timeouts :
  seconds Repro.callTimeoutSecs = 15000000000%Z ∧
  seconds Streaming.callTimeoutSecs = 10000000000%Z ∧
  (∀ d (stop remove : bool) cont w,
     ∃ calls,
       effects (snd (Repro.stopAndCheckContainer_with d stop remove cont w))
       = effects w ++ calls ∧
       Forall (carries_timeout 15000000000) calls) ∧
  (∀ d cont w,
     ∃ rest,
       effects (snd (Streaming.stopAndCheckContainer d cont w))
       = effects w ++ StopContainer (ID cont) 10
                   :: InspectContainer (ID cont) (Some 10000000000%Z) :: rest ∧
       (rest = [] ∨ rest = [RemoveContainer (ID cont)])).
Proof.
  split; [reflexivity|]. split; [reflexivity|]. split.
  - intros d stop remove cont w.
    unfold Repro.stopAndCheckContainer_with. run_glue.
    destruct stop, remove; simpl;
      try destruct (killContainer d (ID cont)); simpl;
      destruct (inspectContainer d (ID cont)); simpl;
      try destruct (removeContainer d (ID cont)); simpl;
      rewrite <- ?app_assoc; simpl;
      eexists; (split; [reflexivity|]); repeat constructor.
  - intros d cont w.
    unfold Streaming.stopAndCheckContainer. run_glue.
    destruct (stopContainer d (ID cont)); simpl;
      destruct (inspectContainer d (ID cont)); simpl;
      rewrite <- ?app_assoc; simpl;
      eexists; (split; [reflexivity|]); auto.
Qed.

Lemma string_app_nil_r (s : string) : s +:+ "" = s.
Proof. induction s as [|a s IH]; [done|]. unfold String.append in *; simpl. by f_equal. Qed.

Lemma string_app_assoc (s1 s2 s3 : string) : (s1 +:+ s2) +:+ s3 = s1 +:+ (s2 +:+ s3).
Proof. induction s1 as [|a s1 IH]; [done|]. unfold String.append in *; simpl. by f_equal. Qed.

(** No file is opened after the log files. *)
Lemma opens_nothing_ret {A} (a : A) : opens_nothing (mret a).
Proof. by intros w. Qed.

Lemma opens_nothing_exit {A} (code : Z) : opens_nothing (@os_Exit A code).
Proof. by intros w. Qed.

Lemma opens_nothing_log (l : log_line) : opens_nothing (log_Printf l).
Proof. by intros w. Qed.

Lemma opens_nothing_print (line : string) : opens_nothing (fmt_Printf line).
Proof. by intros w. Qed.

Lemma opens_nothing_created : opens_nothing created_so_far.
Proof. by intros w. Qed.

Lemma opens_nothing_perform (e : effect) :
  is_open e = false → opens_nothing (perform e).
Proof.
  intros He w. unfold opened, perform; simpl.
  rewrite List.filter_app; simpl. rewrite He. apply app_nil_r.
Qed.

Lemma opens_nothing_bind {A B} (m : M A) (k : A → M B) :
  opens_nothing m → (∀ a, opens_nothing (k a)) → opens_nothing (m ≫= k).
Proof.
  intros Hm Hk w. unfold mbind, M_bind, bind.
  specialize (Hm w). destruct (m w) as [[a|code] w']; simpl in *.
  - by rewrite Hk.
  - done.
Qed.

Lemma opened_bind {A B} (m : M A) (k : A → M B) w :
  opened (snd ((m ≫= k) w))
  = match m w with
    | (Ret a, w') => opened (snd (k a w'))
    | (Exit _, w') => opened w'
    end.
Proof. unfold mbind, M_bind, bind. by destruct (m w) as [[a|code] w']. Qed.

Ltac opens_nothing :=
  repeat first
    [ apply opens_nothing_ret | apply opens_nothing_exit
    | apply opens_nothing_log | apply opens_nothing_print
    | apply opens_nothing_created
    | apply opens_nothing_perform; reflexivity
    | apply opens_nothing_bind; [|intros ?]
    | match goal with
      | |- opens_nothing (match ?x with _ => _ end) => destruct x
      end ].

Lemma streaming_failOnError_opens_nothing err :
  opens_nothing (Streaming.failOnError err).
Proof. unfold Streaming.failOnError. opens_nothing. Qed.

Lemma streaming_stopAndCheckContainer_opens_nothing d cont :
  opens_nothing (Streaming.stopAndCheckContainer d cont).
Proof. unfold Streaming.stopAndCheckContainer. opens_nothing. Qed.

Lemma aggressive_failOnError_opens_nothing err :
  opens_nothing (Aggressive.failOnError err).
Proof. unfold Aggressive.failOnError, Aggressive.fail. opens_nothing. Qed.

Lemma repro_failOnError_opens_nothing err :
  opens_nothing (Repro.failOnError err).
Proof. unfold Repro.failOnError. opens_nothing. Qed.

Lemma repro_stopAndCheckContainer_opens_nothing d cont :
  opens_nothing (Repro.stopAndCheckContainer d cont).
Proof.
  unfold Repro.stopAndCheckContainer, Repro.stopAndCheckContainer_with.
  opens_nothing.
Qed.

Lemma repro_check_all_opens_nothing d conts affected :
  opens_nothing (Repro.check_all d conts affected).
Proof.
  revert affected. induction conts as [|c conts IH]; intros affected; simpl.
  - opens_nothing.
  - apply opens_nothing_bind; [apply repro_stopAndCheckContainer_opens_nothing|].
    intros err. apply IH.
Qed.

Lemma repro_print_affected_opens_nothing affected :
  opens_nothing (Repro.print_affected affected).
Proof.
  induction affected as [|c affected IH]; simpl; [opens_nothing|].
  apply opens_nothing_bind; [apply opens_nothing_print | by intros _].
Qed.

Lemma repro_main_opens_nothing d : opens_nothing (Repro.main d).
Proof.
  unfold Repro.main, Repro.buildImageOptions, Repro.createContainer.
  repeat first
    [ apply repro_failOnError_opens_nothing
    | apply repro_stopAndCheckContainer_opens_nothing
    | apply repro_check_all_opens_nothing
    | apply repro_print_affected_opens_nothing
    | progress opens_nothing ].
Qed.

Lemma streaming_logFiles_start d :
  openFile d ("statsout-" +:+ now_rfc3339 d) = None →
  openFile d ("eventsout-" +:+ now_rfc3339 d) = None →
  Streaming.logFiles d start
  = (Ret ("statsout-" +:+ now_rfc3339 d, "eventsout-" +:+ now_rfc3339 d),
     World [OpenFile ("statsout-" +:+ now_rfc3339 d) [O_CREATE; O_WRONLY] 416;
            OpenFile ("eventsout-" +:+ now_rfc3339 d) [O_CREATE; O_WRONLY] 416]
           [LogEventsFile ("eventsout-" +:+ now_rfc3339 d);
            LogStatsFile ("statsout-" +:+ now_rfc3339 d)]
           []).
Proof.
  intros Hs He. unfold Streaming.logFiles. run_glue.
  rewrite Hs; simpl. by rewrite He.
Qed.

End GlueFacts.


(** C7 on three daemons: one that answers every call, one whose
    inspection of c1 runs into the deadline, one that cannot build the
    image; and logFile on a system that refuses to open files. *)
Lemma exit_status_on_three_daemons :
  (Glue.exit_status (Repro.main Runs.healthy Glue.start) = 0%Z ∧
   Glue.stdout (snd (Repro.main Runs.healthy Glue.start)) = []) ∧
  (Glue.exit_status (Repro.main Runs.inspect_hangs Glue.start) = 2%Z ∧
   Glue.stdout (snd (Repro.main Runs.inspect_hangs Glue.start))
   = ["# docker inspect c1" +:+ Glue.newline]) ∧
  (Glue.exit_status (Repro.main Runs.build_fails Glue.start) = 1%Z ∧
   Glue.stdout (snd (Repro.main Runs.build_fails Glue.start)) = []) ∧
  fst (Repro.logFile Runs.open_fails "statsout" Glue.start) = Glue.Exit 1%Z ∧
  (Glue.exit_status (Streaming.main Runs.open_fails Glue.start) = 1%Z ∧
   Glue.exit_status (Aggressive.main Runs.open_fails Glue.start) = 1%Z).
Proof.
  split; [|split; [|split; [|split]]].
  - destruct (exit_status_of_the_run Runs.healthy) as (_ & Hok & _).
    destruct (Hok (Glue.Container "c0") (Glue.Container "c1")) as [Hnone _].
    { repeat split. }
    apply Hnone. reflexivity.
  - destruct (exit_status_of_the_run Runs.inspect_hangs) as (_ & Hok & _).
    destruct (Hok (Glue.Container "c0") (Glue.Container "c1")) as [_ Hsome].
    { repeat split. }
    apply Hsome. vm_compute. discriminate.
  - destruct (exit_status_of_the_run Runs.build_fails) as (Hfail & _).
    apply Hfail. intros (c1 & c2 & _ & Hbuild & _). vm_compute in Hbuild.
    discriminate Hbuild.
  - destruct (exit_status_of_the_run Runs.open_fails) as (_ & _ & _ & Hlog & _).
    apply (Hlog "statsout"%string Glue.start "permission denied"%string).
    reflexivity.
  - destruct (exit_status_of_the_run Runs.open_fails) as (_ & _ & _ & _ & Hopen).
    apply (Hopen "permission denied"%string). left. reflexivity.
Defined.

(** C8, the sentence as worded fails: in the first variant the stop call
    has no context and the inspect call has a 10-second one. *)
Lemma first_variant_has_no_15s_context :
  ¬ AsWorded.every_lifecycle_call_has_15s_context.
Proof.
  intros H.
  destruct (H Runs.healthy (Glue.Container "c0")) as [Hstreaming _].
  vm_compute in Hstreaming.
  apply Forall_cons in Hstreaming as [Hstop _]. exact Hstop.
Qed.



(** ** logEvents *)
Section EventsFacts.
Import Events.
Context {Event : Type}.
Implicit Types (st : state Event) (tr : list label).
Implicit Types (events : list (option Event)).

Ltac step_inv H :=
  unfold step in H; repeat case_match; simplify_eq; simpl in *.

Lemma events_run_cons l tr st st1 :
  step l st = Some st1 → run (l :: tr) st = run tr st1.
Proof. intros H. unfold run. simpl. by rewrite H. Qed.

(** What logEvents has taken from its channel is what it has written
    followed by what it holds.  What it has taken is what the library has
    sent, a prefix of its input, followed by the nils read from the channel
    after its close. *)
Lemma events_invariant events st :
  reachable events st →
  out st ++ in_hand st = taken st ∧
  ∃ sent k, sent ++ remaining st = events ∧
            (closed st = false → k = 0) ∧
            taken st = sent ++ replicate k None.
Proof.
  intros Hr. pattern st. revert st Hr. apply reachable_from_ind.
  - split; [done|]. exists [], 0. by repeat split.
  - intros st l st' _ (Hout & sent & k & Hsent & Hk & Htaken) Hstep.
    step_inv Hstep; unfold in_hand in *; simpl in *.
    all: repeat match goal with H : logger _ = _ |- _ => rewrite H in Hout; clear H end.
    all: simpl in *; rewrite ?app_nil_r in *.
    + split; [done|]. by exists sent, k.
    + split; [by rewrite Hout|]. exists (sent ++ [o]), 0.
      rewrite <- app_assoc. split; [done|]. split; [done|].
      rewrite Htaken, (Hk eq_refl). simpl. by rewrite !app_nil_r.
    + split; [done|]. exists sent, k. by repeat split.
    + split; [by rewrite Hout|]. exists sent, (S k).
      split; [done|]. split; [done|].
      by rewrite Htaken, replicate_S_end, app_assoc.
    + split; [done|]. by exists sent, k.
    + split; [done|]. by exists sent, k.
Qed.

Lemma taken_step l st st' :
  step l st = Some st' → taken st `prefix_of` taken st'.
Proof. intros Hstep. step_inv Hstep; try done; by apply prefix_app_r. Qed.

Lemma taken_run tr st st' :
  run tr st = Some st' → taken st `prefix_of` taken st'.
Proof.
  revert st. induction tr as [|l tr IH]; intros st Hrun.
  - unfold run in Hrun; simpl in Hrun. by simplify_eq.
  - unfold run in Hrun; simpl in Hrun.
    destruct (step l st) as [st1|] eqn:E; [|done].
    etrans; [by eapply taken_step | by apply IH].
Qed.

Lemma events_returned_run tr st st' :
  logger st = EReturned → run tr st = Some st' →
  logger st' = EReturned ∧ out st' = out st.
Proof.
  revert st. induction tr as [|l tr IH]; intros st Hl Hrun.
  - unfold run in Hrun; simpl in Hrun. by simplify_eq.
  - unfold run in Hrun; simpl in Hrun.
    destruct (step l st) as [st1|] eqn:E; [|done].
    assert (logger st1 = EReturned ∧ out st1 = out st) as [Hl1 Ho1].
    { step_inv E; done. }
    destruct (IH st1 Hl1 Hrun) as [? ?]. split; [done | congruence].
Qed.

(** X1.  LogEvents writes every event it takes from its channel, in the order
    of arrival and without a nil test: in every reachable state what was
    taken is what was written followed by the one event in hand, and a nil
    in hand is written like any other event.  What was taken is a prefix of
    what the library sends, followed by nils only once the channel is
    closed.  Whatever was taken is in the sink when logEvents returns, and
    after its return nothing is written. *)
Theorem logEvents_writes_all_it_receives events st :
  reachable events st →
  out st ++ in_hand st = taken st ∧
  (∃ sent k, sent ++ remaining st = events ∧
             (closed st = false → k = 0) ∧
             taken st = sent ++ replicate k None) ∧
  (logger st = EGot None →
     ∃ st', step Write st = Some st' ∧ out st' = out st ++ [None]) ∧
  (∀ tr st', run tr st = Some st' → logger st' = EReturned →
             taken st `prefix_of` out st') ∧
  (logger st = EReturned →
     ∀ tr st', run tr st = Some st' → out st' = out st).
Proof.
  intros Hr. destruct (events_invariant events st Hr) as [Hout Hsent].
  split; [done|]. split; [done|]. split; [|split].
  - intros Hl. eexists. unfold step. rewrite Hl. by split.
  - intros tr st' Hrun Hl.
    assert (Hr' : reachable events st') by (by eapply reachable_from_run).
    destruct (events_invariant events st' Hr') as [Hout' _].
    unfold in_hand in Hout'. rewrite Hl, app_nil_r in Hout'.
    rewrite Hout'. by eapply taken_run.
  - intros Hl tr st' Hrun. by destruct (events_returned_run tr st st' Hl Hrun).
Qed.

(** X2.  When the library has closed the events channel, logEvents does not
    stop: every visit of its select can read a nil from the closed channel
    and write it, any number of times in a row, cancelled or not. *)
Theorem logEvents_spins_on_closed_channel st (n : nat) :
  closed st = true → logger st = ESelect →
  ∃ st', run (spin n) st = Some st' ∧
         out st' = out st ++ replicate n None ∧
         logger st' = ESelect ∧ closed st' = true ∧
         cancelled st' = cancelled st.
Proof.
  revert st. induction n as [|n IH]; intros st Hc Hl.
  - exists st. unfold spin, run; simpl. by rewrite app_nil_r.
  - set (st1 := State (cancelled st) (remaining st) true (taken st ++ [None])
                      (EGot None) (out st)).
    set (st2 := State (cancelled st) (remaining st) true (taken st ++ [None])
                      ESelect (out st ++ [None])).
    assert (H1 : step RecvClosed st = Some st1) by (unfold step; by rewrite Hc, Hl).
    assert (H2 : step Write st1 = Some st2) by done.
    destruct (IH st2 eq_refl eq_refl) as (st' & Hrun & Ho & Hl' & Hc' & Hcc).
    exists st'. split.
    { unfold spin in *. cbn [replicate concat app].
      by rewrite (events_run_cons _ _ _ _ H1), (events_run_cons _ _ _ _ H2). }
    split; [|done]. rewrite Ho. simpl. by rewrite <- app_assoc.
Qed.
End EventsFacts.

(** ** statsForContainers: subscriptions and channels *)
Section RefetcherMoreFacts.
Import Refetcher RefetcherObs.
Context {Stats : Type}.
Implicit Types (st : state Stats) (tr : list label) (f : forwarder Stats).
Implicit Types (cs : list (string * list (list (option Stats)))).

Ltac step_inv H :=
  unfold step, step_live in H; repeat case_match; simplify_eq; simpl in *.

Lemma sum_list_with_insert {A} (g : A → nat) (l : list A) (k : nat) (x y : A) :
  l !! k = Some x →
  sum_list_with g (<[k:=y]> l) + g x = sum_list_with g l + g y.
Proof.
  revert k. induction l as [|a l IH]; intros [|k] Hk; simplify_eq/=; [lia|].
  specialize (IH k Hk). lia.
Qed.

Lemma finished_insert (subs : list (sub_pc Stats)) k s s' :
  subs !! k = Some s → is_done s = false → is_done s' = false →
  finished (<[k:=s']> subs) = finished subs.
Proof.
  intros Hk Hs Hs'. unfold finished.
  pose proof (sum_list_with_insert (λ s, if is_done s then 1 else 0) subs k s s' Hk) as H.
  simpl in H. rewrite Hs, Hs' in H. lia.
Qed.

Lemma finished_insert_done (subs : list (sub_pc Stats)) k s :
  subs !! k = Some s → is_done s = false →
  finished (<[k:=SubDone]> subs) = S (finished subs).
Proof.
  intros Hk Hs. unfold finished.
  pose proof (sum_list_with_insert (λ s, if is_done s then 1 else 0) subs k s SubDone Hk) as H.
  simpl in H. rewrite Hs in H. lia.
Qed.

Lemma finished_snoc (subs : list (sub_pc Stats)) :
  finished (subs ++ [SubSpawned]) = finished subs.
Proof. unfold finished. rewrite sum_list_with_app. simpl. lia. Qed.

Lemma refetch_balanced cs st :
  reachable cs st →
  ∀ i f, fwds st !! i = Some f → balanced f ∧ (pc f = FStart → token f = false).
Proof.
  intros Hr. pattern st. revert st Hr. apply reachable_from_ind.
  - simpl. intros i f Hf. apply list_lookup_fmap_Some in Hf as (c & -> & _).
    by split.
  - intros st l st' _ IH Hstep i f' Hf'.
    step_inv Hstep; eauto.
    all: match type of Hf' with context [ <[?j:=_]> _ !! ?i ] =>
           destruct (decide (i = j)) as [->|?];
           [ rewrite list_lookup_insert_eq in Hf' by (by eapply lookup_lt_Some)
           | rewrite list_lookup_insert_ne in Hf' by done; eauto ]
         end.
    all: simplify_eq.
    all: match goal with H : fwds _ !! _ = Some ?f |- _ =>
           destruct (IH _ _ H) as [Hb Ht] end.
    all: unfold balanced, tokens, in_hand, started, non_nil in *; simpl in *.
    all: repeat match goal with H : pc _ = _ |- _ => rewrite H in * end.
    all: try rewrite (Ht eq_refl) in *.
    all: repeat match goal with H : token _ = _ |- _ => rewrite H in * end.
    all: rewrite ?length_app, ?length_insert, ?finished_snoc, ?filter_app in *; simpl in *.
    all: try (erewrite finished_insert by (eauto; done)).
    all: try (erewrite finished_insert_done by (eauto; done)).
    all: rewrite ?length_app; simpl.
    all: split; [try lia | try done].
Qed.

(** A streaming subscription's channel is not closed. *)
Lemma streaming_channel_open f k ch rest :
  channels_in_order f → subs f !! k = Some (SubStreaming ch rest) →
  is_closed ch f = false.
Proof.
  intros (_ & Hstream & _ & Hclosed) Hk.
  unfold is_closed. apply bool_decide_eq_false_2. intros Hin.
  destruct (Hclosed _ Hin) as (k' & -> & Hk').
  pose proof (Hstream _ _ _ Hk) as Heq. simplify_eq.
  destruct Hk'; congruence.
Qed.

Lemma refetch_channels cs st :
  reachable cs st →
  panicked st = false ∧
  ∀ i f, fwds st !! i = Some f → channels_in_order f.
Proof.
  intros Hr. pattern st. revert st Hr. apply reachable_from_ind.
  - split; [done|]. simpl. intros i f Hf.
    apply list_lookup_fmap_Some in Hf as (c & -> & _).
    repeat split; simpl; intros; try done.
    match goal with H : _ ∈ [] |- _ => inversion H end.
  - intros st l st' _ [Hp IH] Hstep.
    unfold step in Hstep. rewrite Hp in Hstep.
    destruct l; simpl in Hstep.
    all: repeat case_match; simplify_eq; simpl in *.
    all: try (split; [done|]).
    all: try done.
    all: try (exfalso;
              match goal with
              | Hf : fwds _ !! _ = Some ?f, Hs : subs ?f !! _ = Some (SubStreaming _ _),
                Hc : is_closed _ ?f = true |- _ =>
                  pose proof (streaming_channel_open _ _ _ _ (IH _ _ Hf) Hs); congruence
              end).
    all: intros i' f' Hf'.
    all: match type of Hf' with context [ <[?j:=_]> _ !! ?i ] =>
           destruct (decide (i = j)) as [->|?];
           [ rewrite list_lookup_insert_eq in Hf' by (by eapply lookup_lt_Some)
           | rewrite list_lookup_insert_ne in Hf' by done; eauto ]
         end.
    all: simplify_eq.
    all: match goal with H : fwds _ !! _ = Some ?f |- _ =>
           destruct (IH _ _ H) as (Hcs & Hstream & Hspawn & Hclosed) end.
    all: unfold channels_in_order; simpl.
    all: rewrite ?length_insert, ?length_app; simpl.
    all: (split; [lia|]);
         (split; [intros k' ch' rest' Hk' | split; [intros k' Hk' | intros c Hc]]).
    all: try match type of Hk' with context [ <[?j:=_]> _ !! ?i ] =>
           destruct (decide (i = j)) as [->|?];
           [ rewrite list_lookup_insert_eq in Hk' by (by eapply lookup_lt_Some)
           | rewrite list_lookup_insert_ne in Hk' by done ]
         end.
    all: simplify_eq.
    all: try by eauto.
    all: try (destruct (Hspawn _ Hk') as (? & ? & [?|?]); congruence).
    all: try match goal with H : subs _ !! _ = Some SubSpawned |- _ =>
           destruct (Hspawn _ H) as (? & ? & [?|?]); try congruence end.
    (* TakeToken *)
    + apply lookup_app_Some in Hk' as [Hk'|[_ Hk']]; [eauto|].
      by destruct (k' - length (subs f)) as [|[|?]].
    + apply lookup_app_Some in Hk' as [Hk'|[Hlen Hk']].
      * destruct (Hspawn _ Hk') as (_ & ? & _). congruence.
      * destruct (k' - length (subs f)) as [|n] eqn:E; [|by destruct n].
        split; [lia | by auto].
    + destruct (Hclosed _ Hc) as (k0 & -> & Hk0). exists k0. split; [done|].
      destruct Hk0 as [Hk0|Hk0]; [left|right];
        (rewrite lookup_app_l; [done | by eapply lookup_lt_Some]).
    (* SubCall *)
    + destruct (Hclosed _ Hc) as (k0 & -> & Hk0). exists k0. split; [done|].
      rewrite list_lookup_insert_ne; [done|]. intros ->. destruct Hk0; congruence.
    + destruct (Hclosed _ Hc) as (k0 & -> & Hk0). exists k0. split; [done|].
      rewrite list_lookup_insert_ne; [done|]. intros ->. destruct Hk0; congruence.
    (* SubSend *)
    + exfalso.
      match goal with
      | Hs : subs f !! ?k = Some (SubStreaming ?ch _), Hb : bool_decide (?ch = _) = true |- _ =>
          apply bool_decide_eq_true_1 in Hb; pose proof (Hstream _ _ _ Hs)
      end.
      destruct (Hspawn _ Hk') as (? & _). assert (k' = k) as -> by lia. congruence.
    + destruct (Hclosed _ Hc) as (k0 & -> & Hk0). exists k0. split; [done|].
      rewrite list_lookup_insert_ne; [done|]. intros ->. destruct Hk0; congruence.
    + auto.
    + destruct (Hclosed _ Hc) as (k0 & -> & Hk0). exists k0. split; [done|].
      rewrite list_lookup_insert_ne; [done|]. intros ->. destruct Hk0; congruence.
    (* SubReturn *)
    + apply elem_of_cons in Hc as [->|Hc].
      * exists k. split; [by eapply Hstream|]. left.
        apply list_lookup_insert_eq. by eapply lookup_lt_Some.
      * destruct (Hclosed _ Hc) as (k0 & -> & Hk0). exists k0. split; [done|].
        rewrite list_lookup_insert_ne; [done|]. intros ->. destruct Hk0; congruence.
    (* SubToken *)
    + destruct (Hclosed _ Hc) as (k0 & -> & Hk0). exists k0. split; [done|].
      destruct (decide (k0 = k)) as [->|?].
      * right. apply list_lookup_insert_eq. by eapply lookup_lt_Some.
      * by rewrite list_lookup_insert_ne.
    (* FwdDone *)
    + auto.
Qed.

(** X3.  StatsForContainers never panics: although a subscription goroutine
    reads the variable [contStats] only when it calls client.Stats, every
    subscription streams on the channel that was made when it was spawned,
    the variable holds the channel made last, and the channel of a
    streaming subscription is never closed, so no channel is closed twice
    and nothing is sent on a closed channel. *)
Theorem statsForContainers_never_panics cs st :
  reachable cs st →
  panicked st = false ∧
  ∀ i f, fwds st !! i = Some f →
    contStats f = length (subs f) ∧
    ∀ k ch rest, subs f !! k = Some (SubStreaming ch rest) →
                 ch = S k ∧ is_closed ch f = false.
Proof.
  intros Hr. destruct (refetch_channels cs st Hr) as [Hp Hwf].
  split; [done|]. intros i f Hf.
  pose proof (Hwf i f Hf) as Hch.
  assert (Hch' := Hch). destruct Hch' as (Hcs & Hstream & _).
  split; [done|]. intros k ch rest Hk. split; [by eapply Hstream|].
  by eapply streaming_channel_open.
Qed.

(** X4.  A forwarder of statsForContainers subscribes at most once more often
    than it has received non-nil snapshots: every value put into
    [subscribeAgain] (one at the start, one after each forwarded snapshot)
    is still in the buffer or was taken by exactly one new subscription or
    one finished subscription goroutine. *)
Theorem subscriptions_follow_snapshots cs st i f :
  reachable cs st → fwds st !! i = Some f →
  tokens f + length (subs f) + finished (subs f) + in_hand f
  = started f + length (non_nil (hist f)) ∧
  length (subs f) ≤ 1 + length (non_nil (hist f)).
Proof.
  intros Hr Hf. destruct (refetch_balanced cs st Hr i f Hf) as [Hb _].
  split; [exact Hb|]. unfold balanced, started in Hb.
  destruct (pc f); lia.
Qed.

Lemma refetch_returned_step l st st' :
  merger st = MReturned → step l st = Some st' →
  merger st' = MReturned ∧ out st' = out st ∧
  ∀ i f stat, fwds st !! i = Some f → pc f = FSend stat →
              ∃ f', fwds st' !! i = Some f' ∧ pc f' = FSend stat.
Proof.
  intros Hm Hstep. step_inv Hstep; try done.
  all: split; [done|]; split; [done|]; intros i' f' stat' Hf' Hpc'.
  all: try by eauto.
  all: match goal with |- context [ <[?j:=_]> _ !! ?i ] =>
         destruct (decide (i = j)) as [->|?];
         [ rewrite list_lookup_insert_eq by (by eapply lookup_lt_Some)
         | rewrite list_lookup_insert_ne by done; by eauto ]
       end.
  all: simplify_eq; try congruence.
  all: by eauto.
Qed.

Lemma refetch_returned_run tr st st' :
  merger st = MReturned → run tr st = Some st' →
  merger st' = MReturned ∧ out st' = out st ∧
  ∀ i f stat, fwds st !! i = Some f → pc f = FSend stat →
              ∃ f', fwds st' !! i = Some f' ∧ pc f' = FSend stat.
Proof.
  revert st. induction tr as [|l tr IH]; intros st Hm Hrun.
  - unfold run in Hrun; simpl in Hrun. simplify_eq. by eauto.
  - unfold run in Hrun; simpl in Hrun.
    destruct (step l st) as [st1|] eqn:E; [|done].
    destruct (refetch_returned_step _ _ _ Hm E) as (Hm1 & Ho1 & Hf1).
    destruct (IH _ Hm1 Hrun) as (Hm2 & Ho2 & Hf2).
    split; [done|]. split; [congruence|].
    intros i f stat Hf Hpc. destruct (Hf1 _ _ _ Hf Hpc) as (f1 & ? & ?). eauto.
Qed.

(** X5.  In statsForContainers too the send on [statsChan] is outside the
    select: once the final loop has returned, the sink never changes, and
    a forwarder at [statsChan <- stat] stays there with its snapshot in
    every later state, where none of its own moves is possible, cancelled
    or not. *)
Theorem parked_send_outlives_the_final_loop cs st i f stat :
  reachable cs st → fwds st !! i = Some f → pc f = FSend stat →
  merger st = MReturned →
  ∀ tr st', run tr st = Some st' →
    out st' = out st ∧ merger st' = MReturned ∧
    (∃ f', fwds st' !! i = Some f' ∧ pc f' = FSend stat) ∧
    ∀ l, moves_forwarder i l = true → step l st' = None.
Proof.
  intros Hr Hf Hpc Hm tr st' Hrun.
  destruct (refetch_returned_run _ _ _ Hm Hrun) as (Hm' & Ho' & Hf').
  destruct (Hf' _ _ _ Hf Hpc) as (f' & Hfi & Hpc').
  split; [done|]. split; [done|]. split; [by eauto|].
  assert (Hr' : reachable cs st') by (by eapply reachable_from_run).
  destruct (refetch_channels cs st' Hr') as [Hp Hwf].
  intros l Hl. unfold step, step_live. rewrite Hp.
  destruct l; simpl in Hl; try done.
  all: apply bool_decide_eq_true_1 in Hl as ->.
  all: rewrite Hfi, ?Hm'; simpl; rewrite ?Hpc'; try done.
  all: repeat case_match; try done; simplify_eq.
  all: match goal with
       | Hs : subs _ !! _ = Some (SubStreaming _ _), Hc : is_closed _ _ = true |- _ =>
           pose proof (streaming_channel_open _ _ _ _ (Hwf _ _ Hfi) Hs); congruence
       end.
Qed.

Lemma stalled_step l st st' i f :
  fwds st !! i = Some f → stalled f → step l st = Some st' →
  ∃ f', fwds st' !! i = Some f' ∧ stalled f' ∧ hist f' = hist f ∧
        length (subs f') = length (subs f) ∧ contStats f' = contStats f.
Proof.
  intros Hf (Ht & Hc & Hpc) Hstep. step_inv Hstep.
  all: try (by (exists f; repeat split; auto)).
  all: match goal with |- context [ <[?j:=_]> _ !! ?i ] =>
         destruct (decide (i = j)) as [->|?];
         [ rewrite list_lookup_insert_eq by (by eapply lookup_lt_Some)
         | rewrite list_lookup_insert_ne by done;
           by (exists f; repeat split; auto) ]
       end.
  all: simplify_eq; try congruence.
  all: try (destruct Hpc; congruence).
  all: unfold is_closed in *.
  all: try match goal with H : bool_decide (_ = contStats _) = true |- _ =>
             apply bool_decide_eq_true_1 in H; subst; congruence end.
  all: eexists; split; [reflexivity|]; unfold stalled, is_closed in *; simpl.
  all: rewrite ?length_insert.
  all: repeat split; auto.
  all: apply bool_decide_eq_true_2; apply bool_decide_eq_true_1 in Hc.
  all: by apply elem_of_cons; right.
Qed.

Lemma stalled_run tr st st' i f :
  fwds st !! i = Some f → stalled f → run tr st = Some st' →
  ∃ f', fwds st' !! i = Some f' ∧ stalled f' ∧ hist f' = hist f ∧
        length (subs f') = length (subs f).
Proof.
  revert st f. induction tr as [|l tr IH]; intros st f Hf Hs Hrun.
  - unfold run in Hrun; simpl in Hrun. simplify_eq. by exists f.
  - unfold run in Hrun; simpl in Hrun.
    destruct (step l st) as [st1|] eqn:E; [|done].
    destruct (stalled_step _ _ _ _ _ Hf Hs E) as (f1 & Hf1 & Hs1 & Hh1 & Hl1 & _).
    destruct (IH _ _ Hf1 Hs1 Hrun) as (f' & ? & ? & ? & ?).
    exists f'. do 2 (split; [done|]). split; congruence.
Qed.

(** X6.  A forwarder of statsForContainers that is at its select, or has
    returned, while its current channel is closed and [subscribeAgain] is
    empty never subscribes again and never receives another snapshot: it
    stays in that condition in every later state, with the same
    subscriptions and the same snapshots received, and neither
    [case <-subscribeAgain] nor a send of client.Stats to it is possible
    there.  (A forwarder that still holds a snapshot, at its send or before
    [subscribeAgain <- true], is not in that condition: it is going to put
    a value into [subscribeAgain].) *)
Theorem stalled_forwarder_never_subscribes_again cs st i f :
  reachable cs st → fwds st !! i = Some f → stalled f →
  ∀ tr st', run tr st = Some st' →
    ∃ f', fwds st' !! i = Some f' ∧ stalled f' ∧ hist f' = hist f ∧
          length (subs f') = length (subs f) ∧
          step (TakeToken i) st' = None ∧
          ∀ k, step (SubSend i k) st' = None.
Proof.
  intros Hr Hf Hs tr st' Hrun.
  destruct (stalled_run _ _ _ _ _ Hf Hs Hrun) as (f' & Hf' & Hs' & Hh & Hl).
  exists f'. do 4 (split; [done|]).
  assert (Hr' : reachable cs st') by (by eapply reachable_from_run).
  destruct (refetch_channels cs st' Hr') as [Hp Hwf].
  destruct Hs' as (Ht & Hc & Hpc).
  split.
  - unfold step, step_live. rewrite Hp, Hf', Ht. by repeat case_match.
  - intros k. unfold step, step_live. rewrite Hp, Hf'.
    repeat case_match; auto; simplify_eq.
    all: match goal with
         | Hsub : subs _ !! _ = Some (SubStreaming _ _) |- _ =>
             pose proof (streaming_channel_open _ _ _ _ (Hwf _ _ Hf') Hsub)
         end.
    all: try congruence.
    all: match goal with H : bool_decide (_ = _) = true |- _ =>
           apply bool_decide_eq_true_1 in H; subst end.
    all: congruence.
Qed.

Lemma overtaken_step cs l st st' i f k rest :
  reachable cs st → fwds st !! i = Some f → overtaken k rest f →
  step l st = Some st' →
  ∃ f', fwds st' !! i = Some f' ∧ overtaken k rest f'.
Proof.
  intros Hr Hf [Hlen Hk] Hstep.
  destruct (refetch_channels cs st Hr) as [_ Hwf].
  destruct (Hwf _ _ Hf) as (Hcs & Hstream & _).
  step_inv Hstep.
  all: try (by (exists f; split; [done|]; split; auto)).
  all: match goal with |- context [ <[?j:=_]> _ !! ?i ] =>
         destruct (decide (i = j)) as [->|?];
         [ rewrite list_lookup_insert_eq by (by eapply lookup_lt_Some)
         | rewrite list_lookup_insert_ne by done;
           by (exists f; split; [done|]; split; auto) ]
       end.
  all: simplify_eq.
  all: eexists; split; [reflexivity|]; unfold overtaken; simpl.
  all: rewrite ?length_insert, ?length_app; simpl.
  all: split; [lia|].
  all: try done.
  - rewrite lookup_app_l by lia. done.
  - match goal with |- context [ <[?j:=_]> _ !! k ] =>
      destruct (decide (k = j)) as [->|?] end;
      [ destruct Hk as [?|[?|?]]; congruence
      | by rewrite list_lookup_insert_ne by done ].
  - match goal with |- context [ <[?j:=_]> _ !! k ] =>
      destruct (decide (k = j)) as [->|?] end;
      [| by rewrite list_lookup_insert_ne by done ].
    exfalso.
    match goal with H : bool_decide (_ = contStats _) = true |- _ =>
      apply bool_decide_eq_true_1 in H end.
    match goal with H : subs _ !! _ = Some (SubStreaming _ _) |- _ =>
      pose proof (Hstream _ _ _ H) end.
    lia.
  - match goal with |- context [ <[?j:=_]> _ !! k ] =>
      destruct (decide (k = j)) as [->|?] end;
      [| by rewrite list_lookup_insert_ne by done ].
    exfalso.
    match goal with H : bool_decide (_ = contStats _) = true |- _ =>
      apply bool_decide_eq_true_1 in H end.
    match goal with H : subs _ !! _ = Some (SubStreaming _ _) |- _ =>
      pose proof (Hstream _ _ _ H) end.
    lia.
  - match goal with |- context [ <[?j:=_]> _ !! k ] =>
      destruct (decide (k = j)) as [->|?] end;
      [ rewrite list_lookup_insert_eq by (by eapply lookup_lt_Some); auto
      | by rewrite list_lookup_insert_ne by done ].
  - match goal with |- context [ <[?j:=_]> _ !! k ] =>
      destruct (decide (k = j)) as [->|?] end;
      [ rewrite list_lookup_insert_eq by (by eapply lookup_lt_Some); auto
      | by rewrite list_lookup_insert_ne by done ].
Qed.

Lemma overtaken_run cs tr st st' i f k rest :
  reachable cs st → fwds st !! i = Some f → overtaken k rest f →
  run tr st = Some st' →
  ∃ f', fwds st' !! i = Some f' ∧ overtaken k rest f'.
Proof.
  revert st f. induction tr as [|l tr IH]; intros st f Hr Hf Ho Hrun.
  - unfold run in Hrun; simpl in Hrun. simplify_eq. by exists f.
  - unfold run in Hrun; simpl in Hrun.
    destruct (step l st) as [st1|] eqn:E; [|done].
    destruct (overtaken_step _ _ _ _ _ _ _ _ Hr Hf Ho E) as (f1 & Hf1 & Ho1).
    apply (IH st1 f1); auto. by eapply reachable_from_step.
Qed.

(** X7.  statsForContainers abandons a subscription when it subscribes
    again: the variable [contStats] then holds a new channel, and nothing
    receives from the old one any more.  What a subscription still had to
    deliver when a newer one was spawned is never received: in every later
    state that subscription still has all of it to deliver or has left
    client.Stats, and its send is not possible. *)
Theorem overtaken_subscription_delivers_nothing cs st i f k rest :
  reachable cs st → fwds st !! i = Some f →
  subs f !! k = Some (SubStreaming (S k) rest) → S k < length (subs f) →
  ∀ tr st', run tr st = Some st' →
    ∃ f', fwds st' !! i = Some f' ∧
          (subs f' !! k = Some (SubStreaming (S k) rest) ∨
           subs f' !! k = Some SubWait ∨ subs f' !! k = Some SubDone) ∧
          step (SubSend i k) st' = None.
Proof.
  intros Hr Hf Hk Hlen tr st' Hrun.
  destruct (overtaken_run cs tr st st' i f k rest Hr Hf (conj Hlen (or_introl Hk)) Hrun)
    as (f' & Hf' & Hlen' & Hk').
  exists f'. split; [done|]. split; [done|].
  assert (Hr' : reachable cs st') by (by eapply reachable_from_run).
  destruct (refetch_channels cs st' Hr') as [Hp Hwf].
  destruct (Hwf _ _ Hf') as (Hcs & Hstream & _).
  unfold step, step_live. rewrite Hp, Hf'.
  destruct Hk' as [Hk'|[Hk'|Hk']]; rewrite Hk'; repeat case_match; try done.
  all: simplify_eq.
  - pose proof (streaming_channel_open _ _ _ _ (Hwf _ _ Hf') Hk'). congruence.
  - match goal with H : bool_decide (_ = contStats _) = true |- _ =>
      apply bool_decide_eq_true_1 in H end.
    lia.
  - match goal with H : bool_decide (_ = contStats _) = true |- _ =>
      apply bool_decide_eq_true_1 in H end.
    lia.
Qed.
End RefetcherMoreFacts.

(** ** The three mains, beyond their exit status *)
Section GlueMoreFacts.
Import Glue GlueObs.

Ltac run_glue :=
  unfold mbind, mret, M_bind, M_ret, bind, ret, perform, log_Printf, fmt_Printf,
    os_Exit, created_so_far in *; simpl in *.

(** Case analysis on the next answer of the daemon, in program order. *)
Ltac answer d :=
  match goal with
  | |- context [ openFile d ?n ] => destruct (openFile d n) eqn:?; simpl
  | |- context [ newClientFromEnv d ] => destruct (newClientFromEnv d) eqn:?; simpl
  | |- context [ buildImage d ] => destruct (buildImage d) eqn:?; simpl
  | |- context [ addEventListener d ] => destruct (addEventListener d) eqn:?; simpl
  | |- context [ createContainer_nth d ?n ] =>
      destruct (createContainer_nth d n) eqn:?; simpl
  | |- context [ startContainer d ?i ] => destruct (startContainer d i) eqn:?; simpl
  | |- context [ stopContainer d ?i ] => destruct (stopContainer d i) eqn:?; simpl
  | |- context [ killContainer d ?i ] => destruct (killContainer d i) eqn:?; simpl
  | |- context [ inspectContainer d ?i ] => destruct (inspectContainer d i) eqn:?; simpl
  | |- context [ removeContainer d ?i ] => destruct (removeContainer d i) eqn:?; simpl
  end.

Lemma keeps_ret {A} p (a : A) : keeps p (mret a).
Proof. by intros w. Qed.

Lemma keeps_exit {A} p (code : Z) : keeps p (@os_Exit A code).
Proof. by intros w. Qed.

Lemma keeps_log p (l : log_line) : keeps p (log_Printf l).
Proof. by intros w. Qed.

Lemma keeps_print p (line : string) : keeps p (fmt_Printf line).
Proof. by intros w. Qed.

Lemma keeps_created p : keeps p created_so_far.
Proof. by intros w. Qed.

Lemma keeps_perform p (e : effect) : p e = false → keeps p (perform e).
Proof.
  intros He w. unfold perform; simpl.
  rewrite List.filter_app; simpl. rewrite He. apply app_nil_r.
Qed.

Lemma keeps_bind {A B} p (m : M A) (k : A → M B) :
  keeps p m → (∀ a, keeps p (k a)) → keeps p (m ≫= k).
Proof.
  intros Hm Hk w. unfold mbind, M_bind, bind.
  specialize (Hm w). destruct (m w) as [[a|code] w']; simpl in *.
  - by rewrite Hk.
  - done.
Qed.

Ltac keeps :=
  repeat first
    [ apply keeps_ret | apply keeps_exit | apply keeps_log | apply keeps_print
    | apply keeps_created
    | apply keeps_perform; reflexivity
    | apply keeps_bind; [|intros ?]
    | match goal with
      | |- keeps _ (match ?x with _ => _ end) => destruct x
      end ].

Lemma repro_stopAndCheckContainer_keeps d cont :
  keeps is_cleanup (Repro.stopAndCheckContainer d cont).
Proof.
  unfold Repro.stopAndCheckContainer, Repro.stopAndCheckContainer_with.
  unfold Repro.configStopContainer, Repro.configRemoveContainer. keeps.
Qed.

Lemma repro_check_all_keeps d conts affected :
  keeps is_cleanup (Repro.check_all d conts affected).
Proof.
  revert affected. induction conts as [|c conts IH]; intros affected; simpl.
  - keeps.
  - apply keeps_bind; [apply repro_stopAndCheckContainer_keeps|].
    intros err. apply IH.
Qed.

Lemma repro_print_affected_keeps p affected :
  keeps p (Repro.print_affected affected).
Proof.
  induction affected as [|c affected IH]; simpl; [keeps|].
  apply keeps_bind; [apply keeps_print | by intros _].
Qed.

Lemma repro_stopAndCheckContainer_effects d cont w :
  ∃ err w',
    Repro.stopAndCheckContainer d cont w = (Ret err, w') ∧
    effects w' = effects w ++ [repro_inspection cont] ∧
    stdout w' = stdout w.
Proof.
  unfold Repro.stopAndCheckContainer, Repro.stopAndCheckContainer_with,
    Repro.configStopContainer, Repro.configRemoveContainer, repro_inspection.
  run_glue. destruct (inspectContainer d (ID cont)); simpl; eauto.
Qed.

(** X9.  With its two constants as they are, the second variant never
    stops, kills or removes a container and never removes the image,
    whatever the daemon answers and wherever the run ends: what it built,
    created and started is left behind. *)
Theorem repro_run_cleans_nothing d w :
  cleanups (snd (Repro.main d w)) = cleanups w ∧
  (∀ conts affected w, cleanups (snd (Repro.check_all d conts affected w)) = cleanups w) ∧
  (∀ cont w, cleanups (snd (Repro.stopAndCheckContainer d cont w)) = cleanups w).
Proof.
  split; [|split].
  - revert w. change (keeps is_cleanup (Repro.main d)).
    unfold Repro.main, Repro.buildImageOptions, Repro.createContainer,
      Repro.failOnError.
    repeat first
      [ apply repro_stopAndCheckContainer_keeps
      | apply repro_check_all_keeps
      | apply repro_print_affected_keeps
      | progress keeps ].
  - intros conts affected w'. apply repro_check_all_keeps.
  - intros cont w'. apply repro_stopAndCheckContainer_keeps.
Qed.

(** X10.  The loop of the second variant's main inspects every container of
    its list, in the order of the list and each with the 15 s context,
    whether or not an earlier inspection failed; it makes no other call
    and prints nothing. *)
Theorem check_all_inspects_every_container d conts affected w :
  effects (snd (Repro.check_all d conts affected w))
  = effects w ++ (repro_inspection <$> conts) ∧
  stdout (snd (Repro.check_all d conts affected w)) = stdout w.
Proof.
  revert affected w. induction conts as [|c conts IH]; intros affected w.
  - simpl. by rewrite app_nil_r.
  - simpl. unfold mbind, M_bind, bind.
    destruct (repro_stopAndCheckContainer_effects d c w) as (err & w' & -> & He & Hs).
    destruct (IH (if failed err then affected ++ [c] else affected) w') as [IHe IHs].
    rewrite IHe, IHs, He, Hs. by rewrite <- app_assoc.
Qed.

(** X11.  The first variant of part_000.  When a call before the
    observation window fails the process exits with status 1.  When they
    all succeed, both containers are verified, the first before the
    second and the second also when the first failed: each is stopped with
    the 10 s timeout, inspected, and removed when the inspection
    succeeded.  The process ends with status 0 when both verifications
    returned nil and exits with status 2 otherwise. *)
Theorem streaming_run_verifies_both_containers d :
  ((¬ ∃ cont1 cont2, streaming_setup_succeeds d cont1 cont2) →
     exit_status (Streaming.main d start) = 1%Z) ∧
  (∀ cont1 cont2, streaming_setup_succeeds d cont1 cont2 →
     exit_status (Streaming.main d start)
     = (if streaming_check_fails d cont1 || streaming_check_fails d cont2
        then 2 else 0)%Z ∧
     lifecycle (snd (Streaming.main d start))
     = streaming_verification d cont1 ++ streaming_verification d cont2).
Proof.
  split.
  - intros Hfail.
    unfold Streaming.main, Streaming.logFiles, Streaming.failOnError,
      Streaming.buildImageOptions, Streaming.createContainer.
    run_glue.
    destruct (openFile d ("statsout-" +:+ now_rfc3339 d)) eqn:E1; simpl; [done|].
    destruct (openFile d ("eventsout-" +:+ now_rfc3339 d)) eqn:E2; simpl; [done|].
    destruct (newClientFromEnv d) eqn:E3; simpl; [done|].
    destruct (buildImage d) eqn:E4; simpl; [done|].
    destruct (addEventListener d) eqn:E5; simpl; [done|].
    destruct (createContainer_nth d 0) as [c1|] eqn:E6; simpl; [|done].
    destruct (createContainer_nth d 1) as [c2|] eqn:E7; simpl; [|done].
    destruct (startContainer d (ID c1)) eqn:E8; simpl; [done|].
    destruct (startContainer d (ID c2)) eqn:E9; simpl.
    + unfold Streaming.stopAndCheckContainer. run_glue.
      by repeat answer d.
    + exfalso. apply Hfail. exists c1, c2. by repeat split.
  - intros c1 c2 ((E1 & E2) & E5 & E3 & E4 & E6 & E7 & E8 & E9).
    unfold Streaming.main, Streaming.logFiles, Streaming.failOnError,
      Streaming.buildImageOptions, Streaming.createContainer,
      Streaming.stopAndCheckContainer, streaming_check_fails,
      streaming_verification, lifecycle.
    run_glue.
    rewrite E1; simpl. rewrite E2; simpl. rewrite E3; simpl. rewrite E4; simpl.
    rewrite E5; simpl. rewrite E6; simpl. rewrite E7; simpl. rewrite E8; simpl.
    rewrite E9; simpl.
    destruct (stopContainer d (ID c1)); simpl;
      destruct (inspectContainer d (ID c1)); simpl;
      try destruct (removeContainer d (ID c1)); simpl;
      destruct (stopContainer d (ID c2)); simpl;
      destruct (inspectContainer d (ID c2)); simpl;
      try destruct (removeContainer d (ID c2)); simpl; done.
Qed.

(** X12.  The start of the second container fails, after everything before
    it succeeded.  All three variants exit with status 1, the error being
    the last line of the log, and none touches the second container.  The
    first variant of part_000 first stops, inspects and (when inspected)
    removes the first container; the second variant only inspects it;
    main.go makes no call at all on the first container, which keeps
    running, and leaves the image and the context as they are, its
    deferred calls being skipped by os.Exit. *)
Theorem second_start_failure_in_each_variant d cont1 cont2 e :
  second_start_fails d cont1 cont2 e →
  (exit_status (Repro.main d start) = 1%Z ∧
   lifecycle (snd (Repro.main d start)) = [repro_inspection cont1] ∧
   last (log (snd (Repro.main d start))) = Some (LogError e)) ∧
  (files_open d → addEventListener d = None →
   (exit_status (Streaming.main d start) = 1%Z ∧
    lifecycle (snd (Streaming.main d start)) = streaming_verification d cont1 ∧
    last (log (snd (Streaming.main d start))) = Some (LogError e)) ∧
   (exit_status (Aggressive.main d start) = 1%Z ∧
    lifecycle (snd (Aggressive.main d start)) = [] ∧
    cleanups (snd (Aggressive.main d start)) = [] ∧
    (CancelContext ∉ effects (snd (Aggressive.main d start))) ∧
    last (log (snd (Aggressive.main d start))) = Some (LogError e))).
Proof.
  intros (E3 & E4 & E6 & E7 & E8 & E9). split.
  - unfold Repro.main, Repro.failOnError, Repro.buildImageOptions,
      Repro.createContainer, Repro.stopAndCheckContainer,
      Repro.stopAndCheckContainer_with, lifecycle, repro_inspection.
    run_glue.
    rewrite E3; simpl. rewrite E4; simpl. rewrite E6; simpl. rewrite E7; simpl.
    rewrite E8; simpl. rewrite E9; simpl.
    by destruct (inspectContainer d (ID cont1)).
  - intros (E1 & E2) E5. split.
    + unfold Streaming.main, Streaming.logFiles, Streaming.failOnError,
        Streaming.buildImageOptions, Streaming.createContainer,
        Streaming.stopAndCheckContainer, streaming_verification, lifecycle.
      run_glue.
      rewrite E1; simpl. rewrite E2; simpl. rewrite E3; simpl. rewrite E4; simpl.
      rewrite E5; simpl. rewrite E6; simpl. rewrite E7; simpl. rewrite E8; simpl.
      rewrite E9; simpl.
      destruct (stopContainer d (ID cont1)); simpl;
        destruct (inspectContainer d (ID cont1)); simpl; done.
    + unfold Aggressive.main, Aggressive.failOnError, Aggressive.fail,
        Aggressive.createContainer, lifecycle, cleanups.
      run_glue.
      rewrite E1; simpl. rewrite E2; simpl. rewrite E3; simpl. rewrite E4; simpl.
      rewrite E5; simpl. rewrite E6; simpl. rewrite E7; simpl. rewrite E8; simpl.
      rewrite E9; simpl.
      repeat split; try done.
      intros Hin. repeat (apply elem_of_cons in Hin as [Hin|Hin]; [done|]).
      by apply elem_of_nil in Hin.
Qed.

(** X13.  Main.go.  The process ends with status 0 or 1.  When main returns
    (status 0), the deferred calls come last and in the reverse order of
    their defer statements: stop the second container, stop the first
    (both with timeout 0), cancel the context, remove the image, and
    nothing before them stops or removes anything.  When the process
    exits with status 1, none of them has run: no container was stopped,
    the image was not removed and the context was not cancelled. *)
Theorem aggressive_deferred_calls d :
  (exit_status (Aggressive.main d start) = 0%Z ∨
   exit_status (Aggressive.main d start) = 1%Z) ∧
  (exit_status (Aggressive.main d start) = 0%Z →
   ∃ cont1 cont2 before,
     createContainer_nth d 0 = inl cont1 ∧ createContainer_nth d 1 = inl cont2 ∧
     effects (snd (Aggressive.main d start))
     = before ++ [StopContainer (ID cont2) 0; StopContainer (ID cont1) 0;
                  CancelContext; RemoveImage Aggressive.imageName] ∧
     List.filter is_cleanup before = [] ∧ (CancelContext ∉ before)) ∧
  (exit_status (Aggressive.main d start) = 1%Z →
   cleanups (snd (Aggressive.main d start)) = [] ∧
   (CancelContext ∉ effects (snd (Aggressive.main d start)))).
Proof.
  unfold Aggressive.main, Aggressive.failOnError, Aggressive.fail,
    Aggressive.createContainer, cleanups.
  run_glue.
  destruct (openFile d ("statsout-" +:+ now_rfc3339 d)) eqn:E1; simpl.
  2: destruct (openFile d ("eventsout-" +:+ now_rfc3339 d)) eqn:E2; simpl.
  3: destruct (newClientFromEnv d) eqn:E3; simpl.
  4: destruct (buildImage d) eqn:E4; simpl.
  5: destruct (addEventListener d) eqn:E5; simpl.
  6: destruct (createContainer_nth d 0) as [c1|] eqn:E6; simpl.
  6: destruct (createContainer_nth d 1) as [c2|] eqn:E7; simpl.
  6: destruct (startContainer d (ID c1)) eqn:E8; simpl.
  7: destruct (startContainer d (ID c2)) eqn:E9; simpl.
  8: {
    split; [by left|]. split; [|done]. intros _.
    exists c1, c2.
    exists [OpenFile ("statsout-" +:+ now_rfc3339 d) [O_CREATE; O_WRONLY] 416;
            OpenFile ("eventsout-" +:+ now_rfc3339 d) [O_CREATE; O_WRONLY] 416;
            NewClientFromEnv; BuildImage Aggressive.imageName; AddEventListener;
            GoLogEvents ("eventsout-" +:+ now_rfc3339 d);
            CreateContainer Aggressive.imageName; CreateContainer Aggressive.imageName;
            StartContainer (ID c1); StartContainer (ID c2);
            GoLogStats ("statsout-" +:+ now_rfc3339 d) [ID c1; ID c2];
            Sleep (wrap64 (10 * time_Second))].
    split; [done|]. split; [done|].
    split; [|split].
    - reflexivity.
    - reflexivity.
    - intros Hin. repeat (apply elem_of_cons in Hin as [Hin|Hin]; [done|]).
      by apply elem_of_nil in Hin. }
  all: split; [by right|]; split; [done|]; intros _; split; [done|].
  all: intros Hin; repeat (apply elem_of_cons in Hin as [Hin|Hin]; [done|]).
  all: by apply elem_of_nil in Hin.
Qed.

(** X14.  In each of the three variants the process exits with status 1
    exactly when the last line of its log is the message of an error:
    every exit through failOnError logs its error last, and a run that
    ends with status 0 or 2 does not end its log with one. *)
Theorem exit_one_logs_the_error_last d :
  (exit_status (Aggressive.main d start) = 1%Z
   ↔ ends_with_error (snd (Aggressive.main d start))) ∧
  (exit_status (Streaming.main d start) = 1%Z
   ↔ ends_with_error (snd (Streaming.main d start))) ∧
  (exit_status (Repro.main d start) = 1%Z
   ↔ ends_with_error (snd (Repro.main d start))).
Proof.
  unfold ends_with_error. split; [|split].
  - unfold Aggressive.main, Aggressive.failOnError, Aggressive.fail,
      Aggressive.createContainer.
    run_glue. repeat answer d.
    all: first [ by (split; [intros _; eexists|])
               | by (split; [|intros [? ?]]) ].
  - unfold Streaming.main, Streaming.logFiles, Streaming.failOnError,
      Streaming.buildImageOptions, Streaming.createContainer,
      Streaming.stopAndCheckContainer.
    run_glue. repeat answer d.
    all: first [ by (split; [intros _; eexists|])
               | by (split; [|intros [? ?]]) ].
  - unfold Repro.main, Repro.failOnError, Repro.buildImageOptions,
      Repro.createContainer, Repro.stopAndCheckContainer,
      Repro.stopAndCheckContainer_with.
    run_glue. repeat answer d.
    all: try (unfold Repro.stopAndCheckContainer, Repro.stopAndCheckContainer_with;
              run_glue; repeat answer d).
    all: first [ by (split; [intros _; eexists|])
               | by (split; [|intros [? ?]]) ].
Qed.
End GlueMoreFacts.

(** ** logStatsForContainers: what its log tells *)
Section CollectorMoreFacts.
Import Collector CollectorObs.
Context {Stats : Type}.
Implicit Types (st : state Stats) (tr : list label).
Implicit Types (cs : list (string * list (option Stats))).

Ltac step_inv H :=
  unfold step in H; repeat case_match; simplify_eq; simpl in *.

Lemma sum_list_with_fmap_zero {A B} (g : B → nat) (h : A → B) (l : list A) :
  (∀ x, g (h x) = 0) → sum_list_with g (h <$> l) = 0.
Proof.
  intros Hz. induction l as [|a l IH]; [done|].
  change (g (h a) + sum_list_with g (h <$> l) = 0). by rewrite Hz, IH.
Qed.

Lemma collector_counts cs st :
  reachable cs st →
  lines is_received st = total_received st ∧
  lines is_listening st = forwarders is_started st ∧
  lines is_no_longer st ≤ forwarders is_returned st ∧
  (cancelled st = false → lines is_no_longer st = forwarders is_returned st) ∧
  length (out st) + holding st + forwarders is_sending st ≤ total_received st.
Proof.
  intros Hr. pattern st. revert st Hr. apply reachable_from_ind.
  - unfold lines, forwarders, total_received, holding; simpl.
    rewrite !sum_list_with_fmap_zero by done. repeat split; lia.
  - intros st l st' _ (IH1 & IH2 & IH3 & IH4 & IH5) Hstep.
    unfold lines, forwarders, total_received, holding in *.
    step_inv Hstep.
    all: try match goal with
         | H : fwds _ !! ?i = Some ?pc |- context [ <[?i:=?pc']> (fwds _) ] =>
             pose proof (sum_list_with_insert is_started _ _ _ pc' H);
             pose proof (sum_list_with_insert is_sending _ _ _ pc' H);
             pose proof (sum_list_with_insert is_returned _ _ _ pc' H)
         end.
    all: try match goal with
         | H : srcs _ !! ?i = Some ?old |- context [ <[?i:=?new]> (srcs _) ] =>
             pose proof (sum_list_with_insert
                           (fun s : source Stats => length (delivered s)) _ _ _ new H)
         end.
    all: rewrite ?sum_list_with_app, ?length_app in *; simpl in *.
    all: rewrite ?length_app in *; simpl in *.
    all: repeat split; try lia.
    all: try congruence.
    all: intros Hc; try congruence; specialize (IH4 Hc); lia.
Qed.

(** X8.  The log of logStatsForContainers counts what its goroutines did.
    There is one line [Received stat] for each value taken from a stream,
    nil or not, one line [listing for stats] for each forwarder that has
    started, and at most one line [no longer streaming] for each forwarder
    that has returned: exactly one as long as the context is not cancelled,
    a forwarder that returns through ctx.Done() logging nothing.  The
    records written, the value held by the final loop and the values held
    by forwarders never outnumber the lines [Received stat]. *)
Theorem log_lines_account_for_the_forwarders cs st :
  reachable cs st →
  lines is_received st = total_received st ∧
  lines is_listening st = forwarders is_started st ∧
  lines is_no_longer st ≤ forwarders is_returned st ∧
  (cancelled st = false → lines is_no_longer st = forwarders is_returned st) ∧
  length (out st) + holding st + forwarders is_sending st ≤ lines is_received st.
Proof.
  intros Hr. destruct (collector_counts cs st Hr) as (H1 & H2 & H3 & H4 & H5).
  repeat split; auto. lia.
Qed.
End CollectorMoreFacts.

(** ** The added facts on concrete runs *)

(** logEvents with the nil event in hand: the first event is written, the
    nil will be written by the next Fprintf. *)
Lemma logEvents_writes_the_nil_event :
  ∃ st, Events.run MoreRuns.nil_event_in_hand
          (Events.logEvents MoreRuns.events_with_nil) = Some st ∧
        Events.out st ++ Events.in_hand st = Events.taken st ∧
        ∃ st', Events.step Events.Write st = Some st' ∧
               Events.out st' = [Some 1; None].
Proof.
  eexists. split; [vm_compute; reflexivity|].
  match goal with |- Events.out ?s ++ _ = _ ∧ _ => set (st := s) end.
  assert (Hr : Events.reachable MoreRuns.events_with_nil st)
    by (exists MoreRuns.nil_event_in_hand; vm_compute; reflexivity).
  destruct (logEvents_writes_all_it_receives MoreRuns.events_with_nil st Hr)
    as (Hout & _ & Hnil & _).
  split; [exact Hout|]. exact (Hnil eq_refl).
Defined.

(** logEvents after the close of its channel: three more rounds write
    three nils. *)
Lemma logEvents_spins_three_times :
  ∃ st, Events.run MoreRuns.closed_after_one
          (Events.logEvents MoreRuns.events_with_nil) = Some st ∧
        ∃ st', Events.run (Events.spin 3) st = Some st' ∧
               Events.out st' = Events.out st ++ [None; None; None] ∧
               Events.logger st' = Events.ESelect.
Proof.
  eexists. split; [vm_compute; reflexivity|].
  match goal with |- ∃ st', Events.run _ ?s = _ ∧ _ => set (st := s) end.
  destruct (logEvents_spins_on_closed_channel st 3 eq_refl eq_refl)
    as (st' & Hrun & Hout & Hpc & _).
  exists st'. split; [exact Hrun|]. split; [exact Hout|exact Hpc].
Defined.

(** statsForContainers in its second subscription: no panic, the
    variable holds the second channel, on which the second subscription
    streams. *)
Lemma second_subscription_streams_on_open_channel :
  ∃ st f, Refetcher.run MoreRuns.refetch_second_subscription
            (Refetcher.statsForContainers MoreRuns.refetch_two_rounds) = Some st ∧
          Refetcher.fwds st !! 0 = Some f ∧
          Refetcher.panicked st = false ∧
          Refetcher.contStats f = 2 ∧
          Refetcher.is_closed 2 f = false.
Proof.
  eexists. eexists. split; [vm_compute; reflexivity|].
  split; [reflexivity|].
  match goal with |- Refetcher.panicked ?s = _ ∧ _ => set (st := s) end.
  assert (Hr : Refetcher.reachable MoreRuns.refetch_two_rounds st)
    by (exists MoreRuns.refetch_second_subscription; vm_compute; reflexivity).
  destruct (statsForContainers_never_panics MoreRuns.refetch_two_rounds st Hr)
    as (Hp & Hf).
  split; [exact Hp|].
  match goal with |- Refetcher.contStats ?x = _ ∧ _ => set (f := x) end.
  destruct (Hf 0 f eq_refl) as (Hc & Hs).
  split; [exact Hc|].
  exact (proj2 (Hs 1 2 [Some 2] eq_refl)).
Defined.

(** The same state: two subscriptions after one snapshot. *)
Lemma two_subscriptions_after_one_snapshot :
  ∃ st f, Refetcher.run MoreRuns.refetch_second_subscription
            (Refetcher.statsForContainers MoreRuns.refetch_two_rounds) = Some st ∧
          Refetcher.fwds st !! 0 = Some f ∧
          length (Refetcher.subs f) ≤ 1 + length (Refetcher.non_nil (Refetcher.hist f)).
Proof.
  eexists. eexists. split; [vm_compute; reflexivity|].
  match goal with |- Refetcher.fwds ?s !! _ = _ ∧ _ => set (st := s) end.
  assert (Hr : Refetcher.reachable MoreRuns.refetch_two_rounds st)
    by (exists MoreRuns.refetch_second_subscription; vm_compute; reflexivity).
  split; [reflexivity|].
  match goal with |- length (Refetcher.subs ?x) ≤ _ => set (f := x) end.
  exact (proj2 (subscriptions_follow_snapshots MoreRuns.refetch_two_rounds st 0 f
                  Hr eq_refl)).
Defined.

(** statsForContainers with the snapshot at its forwarder when the final
    loop returns: the forwarder keeps it for ever. *)
Lemma snapshot_held_after_the_return :
  ∃ st, Refetcher.run Runs.refetch_pending_then_returned
          (Refetcher.statsForContainers Runs.refetch_one_pending) = Some st ∧
        ∀ tr st', Refetcher.run tr st = Some st' →
                  Refetcher.out st' = [] ∧
                  Refetcher.step (Refetcher.Forward 0) st' = None ∧
                  Refetcher.step (Refetcher.FwdDone 0) st' = None.
Proof.
  eexists. split; [vm_compute; reflexivity|].
  intros tr st' Hrun.
  match type of Hrun with Refetcher.run _ ?s = _ => set (st := s) in * end.
  assert (Hr : Refetcher.reachable Runs.refetch_one_pending st)
    by (exists Runs.refetch_pending_then_returned; vm_compute; reflexivity).
  destruct (parked_send_outlives_the_final_loop Runs.refetch_one_pending st 0
              _ (Some 7) Hr eq_refl eq_refl eq_refl tr st' Hrun)
    as (Hout & _ & _ & Hstuck).
  split; [exact Hout|].
  split; apply Hstuck; reflexivity.
Defined.

(** statsForContainers never subscribes again: when the goroutine of the
    first subscription takes the value from [subscribeAgain], and when a
    subscription ends without a snapshot. *)
Lemma forwarder_stalls_on_two_runs :
  (∃ st, Refetcher.run MoreRuns.refetch_token_taken_by_subscription
           (Refetcher.statsForContainers Runs.refetch_one_pending) = Some st ∧
         ∀ tr st', Refetcher.run tr st = Some st' →
                   ∃ f', Refetcher.fwds st' !! 0 = Some f' ∧
                         Refetcher.hist f' = [Some 7] ∧
                         length (Refetcher.subs f') = 1) ∧
  (∃ st, Refetcher.run MoreRuns.refetch_ends_at_once
           (Refetcher.statsForContainers MoreRuns.refetch_empty_feed) = Some st ∧
         ∀ tr st', Refetcher.run tr st = Some st' →
                   ∃ f', Refetcher.fwds st' !! 0 = Some f' ∧
                         Refetcher.hist f' = [] ∧
                         length (Refetcher.subs f') = 1).
Proof.
  split.
  - eexists. split; [vm_compute; reflexivity|].
    intros tr st' Hrun.
    match type of Hrun with Refetcher.run _ ?s = _ => set (st := s) in * end.
    assert (Hr : Refetcher.reachable Runs.refetch_one_pending st)
      by (exists MoreRuns.refetch_token_taken_by_subscription; vm_compute; reflexivity).
    destruct (stalled_forwarder_never_subscribes_again Runs.refetch_one_pending st 0 _
                Hr eq_refl (conj eq_refl (conj eq_refl (or_introl eq_refl)))
                tr st' Hrun)
      as (f' & Hf' & _ & Hh & Hl & _).
    exists f'. split; [exact Hf'|]. split; [exact Hh|exact Hl].
  - eexists. split; [vm_compute; reflexivity|].
    intros tr st' Hrun.
    match type of Hrun with Refetcher.run _ ?s = _ => set (st := s) in * end.
    assert (Hr : Refetcher.reachable MoreRuns.refetch_empty_feed st)
      by (exists MoreRuns.refetch_ends_at_once; vm_compute; reflexivity).
    destruct (stalled_forwarder_never_subscribes_again MoreRuns.refetch_empty_feed st 0 _
                Hr eq_refl (conj eq_refl (conj eq_refl (or_introl eq_refl)))
                tr st' Hrun)
      as (f' & Hf' & _ & Hh & Hl & _).
    exists f'. split; [exact Hf'|]. split; [exact Hh|exact Hl].
Defined.

(** The condition of X6 needs the forwarder at its select: with the
    channel closed and [subscribeAgain] empty but the snapshot still at the
    forwarder's send, the forwarder subscribes a second time. *)
Lemma snapshot_in_hand_subscribes_again :
  ∃ st f, Refetcher.run MoreRuns.refetch_ended_with_snapshot_in_hand
            (Refetcher.statsForContainers Runs.refetch_one_pending) = Some st ∧
          Refetcher.fwds st !! 0 = Some f ∧
          Refetcher.token f = false ∧
          Refetcher.is_closed (Refetcher.contStats f) f = true ∧
          Refetcher.pc f = Refetcher.FSend (Some 7) ∧
          ∃ st' f', Refetcher.run MoreRuns.refetch_hand_over_and_subscribe st = Some st' ∧
                    Refetcher.fwds st' !! 0 = Some f' ∧
                    length (Refetcher.subs f) = 1 ∧ length (Refetcher.subs f') = 2.
Proof.
  eexists. eexists. split; [vm_compute; reflexivity|].
  split; [reflexivity|]. split; [reflexivity|]. split; [reflexivity|].
  split; [reflexivity|].
  eexists. eexists. split; [vm_compute; reflexivity|].
  split; [reflexivity|]. split; reflexivity.
Qed.

(** statsForContainers after its second subscription: the snapshot 5
    that the first subscription still holds is never received. *)
Lemma second_snapshot_of_first_subscription_is_lost :
  ∃ st, Refetcher.run MoreRuns.refetch_resubscribed
          (Refetcher.statsForContainers MoreRuns.refetch_long_first) = Some st ∧
        ∀ tr st', Refetcher.run tr st = Some st' →
                  ∃ f', Refetcher.fwds st' !! 0 = Some f' ∧
                        (Refetcher.subs f' !! 0
                         = Some (Refetcher.SubStreaming 1 [Some 5]) ∨
                         Refetcher.subs f' !! 0 = Some Refetcher.SubWait ∨
                         Refetcher.subs f' !! 0 = Some Refetcher.SubDone) ∧
                        Refetcher.step (Refetcher.SubSend 0 0) st' = None.
Proof.
  eexists. split; [vm_compute; reflexivity|].
  intros tr st' Hrun.
  match type of Hrun with Refetcher.run _ ?s = _ => set (st := s) in * end.
  assert (Hr : Refetcher.reachable MoreRuns.refetch_long_first st)
    by (exists MoreRuns.refetch_resubscribed; vm_compute; reflexivity).
  assert (Hlen : 1 < 2) by (apply le_n).
  exact (overtaken_subscription_delivers_nothing MoreRuns.refetch_long_first st 0 _ 0
           [Some 5] Hr eq_refl eq_refl Hlen tr st' Hrun).
Defined.

(** logStatsForContainers with one stream closed and one forwarder
    returned through ctx.Done(): two forwarders have returned, one line
    [no longer streaming] is in the log. *)
Lemma log_lines_on_a_cancelled_run :
  ∃ st, Collector.run MoreRuns.one_closes_one_cancelled
          (Collector.logStatsForContainers Runs.one_closes) = Some st ∧
        CollectorObs.lines CollectorObs.is_received st = 1 ∧
        CollectorObs.lines CollectorObs.is_listening st = 2 ∧
        CollectorObs.lines CollectorObs.is_no_longer st
        ≤ CollectorObs.forwarders CollectorObs.is_returned st.
Proof.
  eexists. split; [vm_compute; reflexivity|].
  match goal with |- CollectorObs.lines _ ?s = _ ∧ _ => set (st := s) end.
  assert (Hr : Collector.reachable Runs.one_closes st)
    by (exists MoreRuns.one_closes_one_cancelled; vm_compute; reflexivity).
  destruct (log_lines_account_for_the_forwarders Runs.one_closes st Hr)
    as (H1 & H2 & H3 & _).
  split; [exact H1|]. split; [exact H2|exact H3].
Defined.

(** The first variant of part_000 on three daemons: one that answers
    every call, one that cannot remove the first container (the second is
    verified all the same), one that cannot build the image. *)
Lemma streaming_run_on_three_daemons :
  (Glue.exit_status (Streaming.main Runs.healthy Glue.start) = 0%Z ∧
   GlueObs.lifecycle (snd (Streaming.main Runs.healthy Glue.start))
   = [Glue.StopContainer "c0" 10; Glue.InspectContainer "c0" (Some 10000000000%Z);
      Glue.RemoveContainer "c0";
      Glue.StopContainer "c1" 10; Glue.InspectContainer "c1" (Some 10000000000%Z);
      Glue.RemoveContainer "c1"]) ∧
  (Glue.exit_status (Streaming.main GlueObs.remove_c0_fails Glue.start) = 2%Z ∧
   GlueObs.lifecycle (snd (Streaming.main GlueObs.remove_c0_fails Glue.start))
   = [Glue.StopContainer "c0" 10; Glue.InspectContainer "c0" (Some 10000000000%Z);
      Glue.RemoveContainer "c0";
      Glue.StopContainer "c1" 10; Glue.InspectContainer "c1" (Some 10000000000%Z);
      Glue.RemoveContainer "c1"]) ∧
  Glue.exit_status (Streaming.main Runs.build_fails Glue.start) = 1%Z.
Proof.
  split; [|split].
  - destruct (streaming_run_verifies_both_containers Runs.healthy) as (_ & Hok).
    exact (Hok (Glue.Container "c0") (Glue.Container "c1")
               (conj (conj eq_refl eq_refl)
                  (conj eq_refl
                     (conj eq_refl (conj eq_refl (conj eq_refl (conj eq_refl
                        (conj eq_refl eq_refl)))))))).
  - destruct (streaming_run_verifies_both_containers GlueObs.remove_c0_fails)
      as (_ & Hok).
    exact (Hok (Glue.Container "c0") (Glue.Container "c1")
               (conj (conj eq_refl eq_refl)
                  (conj eq_refl
                     (conj eq_refl (conj eq_refl (conj eq_refl (conj eq_refl
                        (conj eq_refl eq_refl)))))))).
  - destruct (streaming_run_verifies_both_containers Runs.build_fails) as (Hfail & _).
    apply Hfail. intros (c1 & c2 & _ & _ & _ & Hbuild & _).
    vm_compute in Hbuild. discriminate Hbuild.
Defined.

(** The daemon that cannot start the second container, in each variant. *)
Lemma second_start_failure_on_a_daemon :
  GlueObs.lifecycle (snd (Repro.main GlueObs.start_c1_fails Glue.start))
  = [Glue.InspectContainer "c0" (Some 15000000000%Z)] ∧
  GlueObs.lifecycle (snd (Streaming.main GlueObs.start_c1_fails Glue.start))
  = [Glue.StopContainer "c0" 10; Glue.InspectContainer "c0" (Some 10000000000%Z);
     Glue.RemoveContainer "c0"] ∧
  GlueObs.lifecycle (snd (Aggressive.main GlueObs.start_c1_fails Glue.start)) = [] ∧
  Glue.exit_status (Aggressive.main GlueObs.start_c1_fails Glue.start) = 1%Z.
Proof.
  destruct (second_start_failure_in_each_variant GlueObs.start_c1_fails
              (Glue.Container "c0") (Glue.Container "c1") "no such container"%string
              (conj eq_refl (conj eq_refl (conj eq_refl (conj eq_refl
                 (conj eq_refl eq_refl))))))
    as ((_ & Hrepro & _) & Hrest).
  destruct (Hrest (conj eq_refl eq_refl) eq_refl)
    as ((_ & Hstreaming & _) & (Hexit & Haggressive & _)).
  split; [exact Hrepro|]. split; [exact Hstreaming|].
  split; [exact Haggressive|exact Hexit].
Defined.

(** main.go on the daemon that answers every call, and on the one that
    cannot start the second container. *)
Lemma deferred_calls_on_two_daemons :
  (∃ before,
     Glue.effects (snd (Aggressive.main Runs.healthy Glue.start))
     = before ++ [Glue.StopContainer "c1" 0; Glue.StopContainer "c0" 0;
                  Glue.CancelContext; Glue.RemoveImage "docker-poke:healthchecks"]) ∧
  GlueObs.cleanups (snd (Aggressive.main GlueObs.start_c1_fails Glue.start)) = [].
Proof.
  split.
  - destruct (aggressive_deferred_calls Runs.healthy) as (_ & Hret & _).
    destruct (Hret eq_refl) as (c1 & c2 & before & Hc1 & Hc2 & Heff & _).
    exists before.
    injection Hc1 as <-. injection Hc2 as <-. exact Heff.
  - destruct (aggressive_deferred_calls GlueObs.start_c1_fails) as (_ & _ & Hexit).
    exact (proj1 (Hexit eq_refl)).
Defined.

(** The daemon that cannot build the image: each variant ends its log
    with the error; the daemon that answers every call: none does. *)
Lemma build_error_is_the_last_log_line :
  GlueObs.ends_with_error (snd (Aggressive.main Runs.build_fails Glue.start)) ∧
  GlueObs.ends_with_error (snd (Streaming.main Runs.build_fails Glue.start)) ∧
  GlueObs.ends_with_error (snd (Repro.main Runs.build_fails Glue.start)) ∧
  ¬ GlueObs.ends_with_error (snd (Repro.main Runs.healthy Glue.start)).
Proof.
  destruct (exit_one_logs_the_error_last Runs.build_fails) as (Ha & Hs & Hr).
  destruct (exit_one_logs_the_error_last Runs.healthy) as (_ & _ & Hh).
  split; [exact (proj1 Ha eq_refl)|].
  split; [exact (proj1 Hs eq_refl)|].
  split; [exact (proj1 Hr eq_refl)|].
  intros He. apply (proj2 Hh) in He. vm_compute in He. discriminate He.
Defined.
